(** * Trace writers of ddtrace/tracer/handler.go

    A shallow embedding of the two [traceWriter] implementations of
    [ddtrace/tracer/handler.go]: [lambdaTraceWriter], which serialises
    traces as JSON lines on standard output, and [agentTraceWriter],
    which hands msgpack payloads to goroutines that send them to the
    agent.  Byte buffers are lists of bytes, Go [int] lengths are
    integers of [Z], loop indices and slice offsets are naturals, and
    the effects of the code (writes to [os.Stdout], calls on the statsd
    client, calls of [log.Error]) are recorded in an explicit
    [process] value that is threaded through the functions. *)

From Stdlib Require Import ZArith List Bool Lia.
From Stdlib Require Import Strings.String Strings.Byte.
From Stdlib Require Import DecimalString HexadecimalString.
From Stdlib Require Import HexadecimalFacts HexadecimalN.
From stdpp Require Import base list strings relations.
Import ListNotations.

Open Scope Z_scope.

(** ** Bytes and [bytes.Buffer] *)

Definition bytes := list byte.

Definition str (s : string) : bytes := list_byte_of_string s.

(** The double quote and the newline. *)
Definition dquote : byte := x22.
Definition newline : byte := x0a.

(** [bytes.Buffer], of which the code only uses the write side: the
    unread portion is the whole content.  [Truncate n] keeps the first
    [n] bytes; Go panics on [n < 0] or [n > Len()], which no call of
    this file reaches: every argument is the length of a prefix of the
    current content ([Truncate_Write], [Truncate_cut_newline]). *)
Module Buffer.

Definition Len (b : bytes) : Z := Z.of_nat (length b).

Definition Reset (b : bytes) : bytes := [].

Definition WriteString (s : bytes) (b : bytes) : bytes := b ++ s.

Definition WriteByte (c : byte) (b : bytes) : bytes := b ++ [c].

Definition Truncate (n : Z) (b : bytes) : bytes := take (Z.to_nat n) b.

End Buffer.

(** ** Spans *)

(** Go's [error] values are only logged; they are identified with their
    message. *)
Definition error := string.
Bind Scope string_scope with error.

(** A [float64] is only ever passed to [encoding/json]; it is a finite
    number, identified with the decimal text [strconv] prints for it,
    or one of the values JSON cannot express. *)
Inductive float64 :=
| Finite (text : string)
| NaN
| Inf (negative : bool).

(** A Go map is [nil] ([None]) or its entries, listed by ascending key
    as [encoding/json] emits them. *)
Definition gomap (V : Type) := option (list (string * V)).

(** The fields of [span] that [addSpan] reads (the declaration of
    [span] is in span.go). *)
Record span := mkSpan {
  Name : string;
  Service : string;
  Resource : string;
  Start : Z;
  Duration : Z;
  Meta : gomap string;
  Metrics : gomap float64;
  SpanID : N;
  TraceID : N;
  ParentID : N;
  Error : Z
}.

Definition hexInt := N.

Record jsonSpan := mkJsonSpan {
  js_TraceID : hexInt;
  js_SpanID : hexInt;
  js_ParentID : hexInt;
  js_Name : string;
  js_Resource : string;
  js_Error : Z;
  js_Meta : gomap string;
  js_Metrics : gomap float64;
  js_Start : Z;
  js_Duration : Z;
  js_Service : string
}.

(** [strconv.FormatUint(i, 16)]: lowercase hexadecimal digits. *)
Definition FormatUint16 (i : N) : bytes :=
  str (HexadecimalString.NilZero.string_of_uint (N.to_hex_uint i)).

(** [hexInt.MarshalJSON]; its error is always nil. *)
Definition hexInt_MarshalJSON (i : hexInt) : bytes :=
  [dquote] ++ FormatUint16 i ++ [dquote].

Record encodingError := mkEncodingError {
  cause : error;
  dropReason : string
}.

(** ** The process around a writer *)

(** Calls on the statsd client [h.config.statsd], in the order made.
    The sampling rate passed last is 1 at every call and is left out;
    the duration given to [Timing] is wall-clock time and is left out
    too. *)
Inductive statsdCall :=
| Incr (name : string) (tags : list string)
| Count (name : string) (value : Z) (tags : list string)
| Timing (name : string) (tags : list string).

(** The calls on the counter [datadog.tracer.traces_dropped]. *)
Definition isDrop (c : statsdCall) : bool :=
  match c with
  | Incr name _ | Count name _ _ | Timing name _ =>
      String.eqb name "datadog.tracer.traces_dropped"
  end.

(** What the writers do to the rest of the process: the byte slices
    written to [os.Stdout], the statsd calls, and the causes passed to
    [log.Error], each oldest first. *)
Record process := mkProcess {
  stdout : list bytes;
  statsd : list statsdCall;
  errors : list string
}.

Definition os_Stdout_Write (p : bytes) (e : process) : process :=
  mkProcess (stdout e ++ [p]) (statsd e) (errors e).

Definition statsd_call (c : statsdCall) (e : process) : process :=
  mkProcess (stdout e) (statsd e ++ [c]) (errors e).

Definition log_Error (msg : string) (e : process) : process :=
  mkProcess (stdout e) (statsd e) (errors e ++ [msg]).

(** The traces-dropped calls a process has made. *)
Definition drops (e : process) : list statsdCall :=
  filter (fun c => isDrop c = true) (statsd e).

(** ** lambdaTraceWriter *)

Record lambdaTraceWriter := mkLambda {
  payload : bytes;
  hasTraces : bool
}.

Definition payloadLimit : Z := 256 * 1024.

(** The text [{"traces": \[] that opens every payload. *)
Definition tracesOpen : bytes :=
  str "{" ++ [dquote] ++ str "traces" ++ [dquote] ++ str ": [".

Definition resetPayload (h : lambdaTraceWriter) : lambdaTraceWriter :=
  let p := Buffer.Reset (payload h) in
  let p := Buffer.WriteString tracesOpen p in
  mkLambda p false.

(** The [jsonSpan] literal of [addSpan]. *)
Definition toJsonSpan (s : span) : jsonSpan :=
  {| js_TraceID := TraceID s;
     js_SpanID := SpanID s;
     js_ParentID := ParentID s;
     js_Name := Name s;
     js_Resource := Resource s;
     js_Error := Error s;
     js_Meta := Meta s;
     js_Metrics := Metrics s;
     js_Start := Start s;
     js_Duration := Duration s;
     js_Service := Service s |}.

Section LambdaTraceWriter.

(** [encoding/json] on a [jsonSpan]: the JSON text, or the error it
    reports. *)
Variable jsonMarshal : jsonSpan -> bytes + error.

(** [json.NewEncoder(&buf).Encode(js)]: the text and a newline are
    written in one piece; on an error nothing is written. *)
Definition Encode (js : jsonSpan) (b : bytes) : bytes * option error :=
  match jsonMarshal js with
  | inl text => (Buffer.WriteString (text ++ [newline]) b, None)
  | inr err => (b, Some err)
  end.

Definition addSpan (s : span) (h : lambdaTraceWriter)
  : lambdaTraceWriter * option error :=
  let js := toJsonSpan s in
  let '(p, err) := Encode js (payload h) in
  match err with
  | Some e => (mkLambda p (hasTraces h), Some e)
  | None =>
      (* cut trailing newline *)
      (mkLambda (Buffer.Truncate (Buffer.Len p - 1) p) (hasTraces h), None)
  end.

Definition truncatePayload (n : Z) (h : lambdaTraceWriter) : lambdaTraceWriter :=
  mkLambda (Buffer.Truncate n (payload h)) (hasTraces h).

Definition writePayload (s : bytes) (h : lambdaTraceWriter) : lambdaTraceWriter :=
  mkLambda (Buffer.WriteString s (payload h)) (hasTraces h).

(** The [for i, s := range trace] loop of [addTrace], entered at
    index [i] with the spans that remain.  The result carries the
    writer, [written], and the error of an early [return]; [None]
    means the loop ended, by [break] or by exhausting the slice. *)
Fixpoint addTrace_loop (startLen : Z) (i : nat) (trace : list span)
    (written : nat) (h : lambdaTraceWriter)
  : lambdaTraceWriter * (nat * option encodingError) :=
  match trace with
  | [] => (h, (written, None))
  | s :: rest =>
      let l := Buffer.Len (payload h) in
      let h := if (i =? 0)%nat then h
               else mkLambda (Buffer.WriteByte ","%byte (payload h)) (hasTraces h) in
      let '(h, err) := addSpan s h in
      match err with
      | Some e =>
          (truncatePayload startLen h,
           (0%nat, Some (mkEncodingError e "encoding_failed")))
      | None =>
          if payloadLimit - 2 <? Buffer.Len (payload h) then
            if (i =? 0)%nat && negb (hasTraces h) then
              (* This is the first span of the first trace, and it's too big. *)
              (truncatePayload startLen h,
               (0%nat, Some (mkEncodingError "span too large for payload"
                                             "trace_too_large")))
            else (truncatePayload l h, (written, None))
          else addTrace_loop startLen (S i) rest (S written) h
      end
  end.

Definition addTrace (trace : list span) (h : lambdaTraceWriter)
  : lambdaTraceWriter * (nat * option encodingError) :=
  let startLen := Buffer.Len (payload h) in
  let h := if negb (hasTraces h) then writePayload (str "[") h
           else writePayload (str ", [") h in
  let '(h, (written, err)) := addTrace_loop startLen 0 trace 0 h in
  match err with
  | Some e => (h, (written, Some e))
  | None =>
      let h := writePayload (str "]") h in
      (mkLambda (payload h) true, (written, None))
  end.

Definition flush (st : lambdaTraceWriter * process)
  : lambdaTraceWriter * process :=
  let '(h, e) := st in
  if negb (hasTraces h) then (h, e)
  else
    let h := writePayload (str "]}") h in
    let e := os_Stdout_Write (payload h) e in
    (resetPayload h, e).

(** The [for len(trace) > 0] loop of [add].  Each iteration consumes
    one unit of [fuel]; [None] means the fuel ran out before the loop
    ended. *)
Fixpoint add_loop (fuel : nat) (trace : list span)
    (st : lambdaTraceWriter * process)
  : option (lambdaTraceWriter * process) :=
  match trace with
  | [] => Some st
  | _ :: _ =>
      match fuel with
      | O => None
      | S fuel =>
          let '(h, e) := st in
          let '(h, (written, err)) := addTrace trace h in
          match err with
          | Some err =>
              let e := log_Error (cause err) e in
              let e := statsd_call
                         (Count "datadog.tracer.traces_dropped" 1
                                [String.append "reason:" (dropReason err)]) e in
              Some (h, e)
          | None =>
              let trace := drop written trace in
              let st := if (0 <? length trace)%nat then flush (h, e) else (h, e) in
              add_loop fuel trace st
          end
      end
  end.

(** [add], run with one unit of fuel per span and one more (enough by
    [add_loop_terminates]). *)
Definition add (trace : list span) (st : lambdaTraceWriter * process)
  : option (lambdaTraceWriter * process) :=
  add_loop (S (length trace)) trace st.

Definition stop (st : lambdaTraceWriter * process)
  : lambdaTraceWriter * process := st.

Definition newLambdaTraceWriter : lambdaTraceWriter :=
  resetPayload (mkLambda [] false).

(** *** Specification-level vocabulary for the buffer contents *)

(** [encodes s t]: [t] is the JSON text of [s]. *)
Definition encodes (s : span) (t : bytes) : Prop :=
  jsonMarshal (toJsonSpan s) = inl t.

(** The texts of consecutive spans of one trace array, the first of
    which has index [i]: a comma before each but the span of index 0. *)
Fixpoint joinSpans (i : nat) (texts : list bytes) : bytes :=
  match texts with
  | [] => []
  | t :: rest =>
      (if (i =? 0)%nat then [] else str ",") ++ t ++ joinSpans (S i) rest
  end.

(** What opens a trace array in the buffer of [h]. *)
Definition traceOpen (h : lambdaTraceWriter) : bytes :=
  if hasTraces h then str ", [" else str "[".

(** One trace array holding the given span texts, as it is written
    into the buffer of [h]. *)
Definition traceEntry (h : lambdaTraceWriter) (texts : list bytes) : bytes :=
  traceOpen h ++ joinSpans 0 texts ++ str "]".

Definition appendEntry (texts : list bytes) (h : lambdaTraceWriter)
  : lambdaTraceWriter :=
  mkLambda (payload h ++ traceEntry h texts) true.

(** The payload [flush] writes for the buffer of [h]. *)
Definition closed (h : lambdaTraceWriter) : bytes := payload h ++ str "]}".

(** The trace arrays of one trace, written one after the other with a
    flush between two of them: the payloads written, and the writer
    left behind, whose buffer holds the last array. *)
Fixpoint writeEntries (entries : list (list bytes)) (h : lambdaTraceWriter)
  : list bytes * lambdaTraceWriter :=
  match entries with
  | [] => ([], h)
  | texts :: rest =>
      let h1 := appendEntry texts h in
      match rest with
      | [] => ([], h1)
      | _ :: _ =>
          let '(ws, h') := writeEntries rest (resetPayload h1) in
          (closed h1 :: ws, h')
      end
  end.

(** The same with a flush after every array. *)
Fixpoint flushEntries (entries : list (list bytes)) (h : lambdaTraceWriter)
  : list bytes * lambdaTraceWriter :=
  match entries with
  | [] => ([], h)
  | texts :: rest =>
      let h1 := appendEntry texts h in
      let '(ws, h') := flushEntries rest (resetPayload h1) in
      (closed h1 :: ws, h')
  end.

(** [stops i h texts rest]: after the span texts [texts] were written
    from index [i] on, the span loop of [addTrace] ends before [rest]:
    at the end of the trace, or at a span whose text does not fit any
    more and that is not the first span of the first trace. *)
Definition stops (i : nat) (h : lambdaTraceWriter) (texts : list bytes)
    (rest : list span) : Prop :=
  match rest with
  | [] => True
  | s :: _ =>
      exists t, encodes s t /\
                payloadLimit - 2 < Buffer.Len (payload h ++ joinSpans i (texts ++ [t])) /\
                ((0 < i + length texts)%nat \/ hasTraces h = true)
  end.

(** Entries as [add] produces them: none after the first is empty, and
    the first is empty only in a batch that already had traces. *)
Definition entriesWellFormed (h : lambdaTraceWriter)
    (entries : list (list bytes)) : Prop :=
  match entries with
  | [] => True
  | first :: rest =>
      (first = [] -> hasTraces h = true) /\ Forall (fun c => c <> []) rest
  end.

(** The statsd call [add] makes when it drops a trace. *)
Definition droppedCall (err : encodingError) : statsdCall :=
  Count "datadog.tracer.traces_dropped" 1
        [String.append "reason:" (dropReason err)].

(** [wroteAll trace st st' entries]: [add] wrote every span of [trace],
    as the trace arrays [entries], and dropped nothing. *)
Definition wroteAll (trace : list span) (st st' : lambdaTraceWriter * process)
    (entries : list (list bytes)) : Prop :=
  Forall2 encodes trace (concat entries) /\
  entriesWellFormed (fst st) entries /\
  (entries = [] <-> trace = []) /\
  exists ws,
    writeEntries entries (fst st) = (ws, fst st') /\
    snd st' = mkProcess (stdout (snd st) ++ ws) (statsd (snd st)) (errors (snd st)).

(** [droppedRest trace st st' entries err]: [add] wrote and flushed the
    trace arrays [entries], which hold the spans before some span of
    [trace], and then dropped the rest of the trace on [err]. *)
Definition droppedRest (trace : list span) (st st' : lambdaTraceWriter * process)
    (entries : list (list bytes)) (err : encodingError) : Prop :=
  (exists done rest,
      trace = done ++ rest /\ rest <> [] /\ Forall2 encodes done (concat entries)) /\
  entriesWellFormed (fst st) entries /\
  (dropReason err = "encoding_failed" \/ dropReason err = "trace_too_large") /\
  exists ws,
    flushEntries entries (fst st) = (ws, fst st') /\
    snd st' = mkProcess (stdout (snd st) ++ ws)
                        (statsd (snd st) ++ [droppedCall err])
                        (errors (snd st) ++ [cause err]).

(** A caller's calls on a writer, and their run one after the other. *)
Inductive call :=
| Add (trace : list span)
| Flush.

Fixpoint calls (cs : list call) (st : lambdaTraceWriter * process)
  : option (lambdaTraceWriter * process) :=
  match cs with
  | [] => Some st
  | Add trace :: cs =>
      match add trace st with
      | Some st => calls cs st
      | None => None
      end
  | Flush :: cs => calls cs (flush st)
  end.

(** The buffer between two calls: at most [payloadLimit - 1] bytes. *)
Definition bufferOK (h : lambdaTraceWriter) : Prop :=
  Buffer.Len (payload h) <= payloadLimit - 1.

(** [wrote e e' bound]: from [e] to [e'] payloads of at most [bound]
    bytes were appended to standard output, and nothing else. *)
Definition wrote (e e' : process) (bound : Z) : Prop :=
  exists ws, stdout e' = stdout e ++ ws /\
             Forall (fun w => Buffer.Len w <= bound) ws.

(** *** The accept property as the specification words it

    Read on this writer: [add] makes the buffer grow by the encoded
    size of the trace (its trace array, with what separates it from the
    array before), or it counts one drop, and not both; and after a
    drop the writer is as it was. *)
Definition bufferGrew (trace : list span) (h h' : lambdaTraceWriter) : Prop :=
  exists texts,
    Forall2 encodes trace texts /\
    Buffer.Len (payload h') = Buffer.Len (payload h) + Buffer.Len (traceEntry h texts).

Definition dropCounted (e e' : process) : Prop :=
  exists c, isDrop c = true /\ statsd e' = statsd e ++ [c].

Definition acceptedOrDropped (trace : list span)
    (st st' : lambdaTraceWriter * process) : Prop :=
  ((bufferGrew trace (fst st) (fst st') /\ ~ dropCounted (snd st) (snd st')) \/
   (~ bufferGrew trace (fst st) (fst st') /\ dropCounted (snd st) (snd st'))) /\
  (dropCounted (snd st) (snd st') -> fst st' = fst st).

End LambdaTraceWriter.

(** ** The JSON text of a span

    What [encoding/json] prints for a [jsonSpan], as far as the type
    above describes its input: one object, the fields in declaration
    order under their [json] tags, the three identifiers through
    [hexInt_MarshalJSON], integers in decimal, strings quoted and
    escaped (with the HTML escapes an [Encoder] applies by default),
    maps as objects.  Strings are taken to be valid UTF-8 without
    U+2028 and U+2029, whose bytes are copied as they are. *)
Module Json.

Definition hexDigit (n : N) : byte :=
  nth (N.to_nat n) (str "0123456789abcdef") "0"%byte.

Definition htmlSafe (b : byte) : bool :=
  let n := Byte.to_N b in
  (32 <=? n)%N && negb (n =? 34)%N && negb (n =? 38)%N
  && negb (n =? 60)%N && negb (n =? 62)%N && negb (n =? 92)%N.

Definition escape (b : byte) : bytes :=
  if htmlSafe b then [b]
  else if (Byte.to_N b =? 92)%N || (Byte.to_N b =? 34)%N then ["\"%byte; b]
  else if (Byte.to_N b =? 10)%N then str "\n"
  else if (Byte.to_N b =? 13)%N then str "\r"
  else if (Byte.to_N b =? 9)%N then str "\t"
  else str "\u00" ++ [hexDigit (Byte.to_N b / 16); hexDigit (Byte.to_N b mod 16)].

Definition encodeString (s : string) : bytes :=
  [dquote] ++ flat_map escape (str s) ++ [dquote].

Definition encodeInt (z : Z) : bytes :=
  str (DecimalString.NilZero.string_of_int (Z.to_int z)).

Definition encodeFloat (f : float64) : bytes + error :=
  match f with
  | Finite text => inl (str text)
  | NaN => inr "json: unsupported value: NaN"
  | Inf false => inr "json: unsupported value: +Inf"
  | Inf true => inr "json: unsupported value: -Inf"
  end.

Fixpoint encodeEntries {V} (enc : V -> bytes + error) (first : bool)
    (entries : list (string * V)) : bytes + error :=
  match entries with
  | [] => inl []
  | (k, v) :: rest =>
      match enc v with
      | inr e => inr e
      | inl tv =>
          match encodeEntries enc false rest with
          | inr e => inr e
          | inl trest =>
              inl ((if first then [] else str ",")
                     ++ encodeString k ++ str ":" ++ tv ++ trest)
          end
      end
  end.

Definition encodeMap {V} (enc : V -> bytes + error) (m : gomap V)
  : bytes + error :=
  match m with
  | None => inl (str "null")
  | Some entries =>
      match encodeEntries enc true entries with
      | inr e => inr e
      | inl t => inl (str "{" ++ t ++ str "}")
      end
  end.

Definition key (k : string) : bytes := [dquote] ++ str k ++ [dquote] ++ str ":".

Definition Marshal (js : jsonSpan) : bytes + error :=
  match encodeMap (fun v => inl (encodeString v)) (js_Meta js) with
  | inr e => inr e
  | inl meta =>
      match encodeMap encodeFloat (js_Metrics js) with
      | inr e => inr e
      | inl metrics =>
          inl (str "{"
               ++ key "trace_id" ++ hexInt_MarshalJSON (js_TraceID js)
               ++ str "," ++ key "span_id" ++ hexInt_MarshalJSON (js_SpanID js)
               ++ str "," ++ key "parent_id" ++ hexInt_MarshalJSON (js_ParentID js)
               ++ str "," ++ key "name" ++ encodeString (js_Name js)
               ++ str "," ++ key "resource" ++ encodeString (js_Resource js)
               ++ str "," ++ key "error" ++ encodeInt (js_Error js)
               ++ str "," ++ key "meta" ++ meta
               ++ str "," ++ key "metrics" ++ metrics
               ++ str "," ++ key "start" ++ encodeInt (js_Start js)
               ++ str "," ++ key "duration" ++ encodeInt (js_Duration js)
               ++ str "," ++ key "service" ++ encodeString (js_Service js)
               ++ str "}")
      end
  end.

End Json.

(** ** Concrete inputs *)

(** A span with the given name that belongs to trace 1, every other
    field at its zero value. *)
Definition namedSpan (id : N) (name : string) : span :=
  {| Name := name; Service := ""; Resource := ""; Start := 0; Duration := 0;
     Meta := None; Metrics := None; SpanID := id; TraceID := 1; ParentID := 0;
     Error := 0 |}.

(** The string of [n] letters [a]. *)
Definition letters (n : nat) : string := string_of_list_byte (repeat "a"%byte n).

(** A span of trace 1 whose JSON text is [n] bytes long, for [n] from
    143 on and [id] below 16: 143 bytes surround the name. *)
Definition sizedSpan (id : N) (n : Z) : span :=
  namedSpan id (letters (Z.to_nat (n - 143))).

(** The JSON text of a span, empty when the encoder fails. *)
Definition jsonText (s : span) : bytes :=
  match Json.Marshal (toJsonSpan s) with
  | inl t => t
  | inr _ => []
  end.

Definition process0 : process := mkProcess [] [] [].

(** A new writer in a process that has done nothing yet. *)
Definition lambda0 : lambdaTraceWriter * process :=
  (newLambdaTraceWriter, process0).

(** The state after [add], or the state before when the fuel of the
    model was not enough (which [add_loop_terminates] excludes). *)
Definition after_add (trace : list span) (st : lambdaTraceWriter * process)
  : lambdaTraceWriter * process :=
  default st (add Json.Marshal trace st).

(** A span that fills a new buffer up to [payloadLimit - 2]. *)
Definition fillingSpan : span := sizedSpan 2 (payloadLimit - 2 - 13).

(** A span too large for any payload. *)
Definition hugeSpan : span := sizedSpan 2 (payloadLimit + 143).

(** Two spans of 200 KiB and a small one. *)
Definition span200a : span := sizedSpan 2 (200 * 1024).
Definition span200b : span := sizedSpan 3 (200 * 1024).
Definition span1k : span := sizedSpan 4 1024.
Definition span100 : span := sizedSpan 5 (100 * 1024).

(** ** agentTraceWriter *)

(** Modelled from the spec: the Buffer of the network path ([payload],
    whose code is in payload.go, outside the sources at hand).  The spec
    describes an append-only accumulator of traces in wire form that
    reports its byte size and its trace count, is created empty, and is
    left in its pre-append state by an append that fails.  The msgpack
    encoding itself is opaque: [encodedSize] gives the size of a trace
    on the wire, or the error of the encoder. *)
Module Payload.

Record payload := mkPayload {
  traces : list (list span);
  bytesize : Z
}.

Definition newPayload : payload := mkPayload [] 0.

Definition push (encodedSize : list span -> Z + error) (trace : list span)
    (p : payload) : payload * option error :=
  match encodedSize trace with
  | inl n => (mkPayload (traces p ++ [trace]) (bytesize p + n), None)
  | inr err => (p, Some err)
  end.

Definition size (p : payload) : Z := bytesize p.

Definition itemCount (p : payload) : Z := Z.of_nat (length (traces p)).

End Payload.

(** Where the goroutine started by [flush] stands: before
    [transport.send], then in its deferred function before the receive
    from [h.climit], before [h.wg.Done()], before the [Timing] call, and
    finally returned. *)
Inductive phase := Sending | Releasing | Finishing | Reporting | Exited.

(** A goroutine started by [flush], with the pointer [p] it was given. *)
Record goroutine := mkGoroutine {
  g_payload : nat;
  g_phase : phase
}.

(** The writer and what it shares with its goroutines.  [*payload]
    values live in [heap] and are named by their index; [ag_payload] is
    the field [h.payload], [ag_climit] the number of elements buffered
    in the channel [h.climit], [ag_wg] the counter of [h.wg].  [sent]
    lists the pointers passed to [transport.send], [rates] the bodies
    passed to [readRatesJSON]. *)
Record agent := mkAgent {
  ag_payload : nat;
  ag_climit : nat;
  ag_wg : nat;
  heap : list Payload.payload;
  goroutines : list goroutine;
  sent : list nat;
  rates : list bytes;
  proc : process
}.

(** What [transport.send] and [readRatesJSON] answer is up to the
    network and the agent. *)
Inductive outcome :=
| SendError (err : error)
| SendOK (rc : bytes) (ratesError : bool).

Definition with_proc (f : process -> process) (a : agent) : agent :=
  mkAgent (ag_payload a) (ag_climit a) (ag_wg a) (heap a) (goroutines a)
          (sent a) (rates a) (f (proc a)).

Definition with_goroutine (i : nat) (g : goroutine) (a : agent) : agent :=
  mkAgent (ag_payload a) (ag_climit a) (ag_wg a) (heap a)
          (<[i := g]> (goroutines a)) (sent a) (rates a) (proc a).

(** [<-h.climit], by a goroutine whose element is in the channel. *)
Definition receive_climit (a : agent) : agent :=
  mkAgent (ag_payload a) (pred (ag_climit a)) (ag_wg a) (heap a) (goroutines a)
          (sent a) (rates a) (proc a).

(** [h.wg.Done()]. *)
Definition wg_Done (a : agent) : agent :=
  mkAgent (ag_payload a) (ag_climit a) (pred (ag_wg a)) (heap a) (goroutines a)
          (sent a) (rates a) (proc a).

(** [*h.payload]; the pointer is always valid ([agent_inv]). *)
Definition deref (a : agent) : Payload.payload :=
  default Payload.newPayload (heap a !! ag_payload a).

Section AgentTraceWriter.

(** The size of a trace on the wire (msgpack, outside the sources). *)
Variable encodedSize : list span -> Z + error.

(** Constants declared outside handler.go. *)
Variable payloadSizeLimit : Z.
Variable concurrentConnectionLimit : nat.

(** [make(chan struct{}, concurrentConnectionLimit)] is empty, the
    zero [sync.WaitGroup] counts nothing. *)
Definition newAgentTraceWriter (e : process) : agent :=
  mkAgent 0 0 0 [Payload.newPayload] [] [] [] e.

(** [flush], run by the caller up to its return.  [None]: the call
    blocks in [h.climit <- struct{}{}], the channel being full; a
    caller that blocks goes on when a goroutine has received from the
    channel, that is from a state in which the call returns. *)
Definition agent_flush (a : agent) : option agent :=
  if Payload.itemCount (deref a) =? 0 then Some a
  else
    let wg := S (ag_wg a) in
    if (ag_climit a <? concurrentConnectionLimit)%nat then
      let climit := S (ag_climit a) in
      let gs := goroutines a ++ [mkGoroutine (ag_payload a) Sending] in
      (* h.payload = newPayload() *)
      Some (mkAgent (length (heap a)) climit wg (heap a ++ [Payload.newPayload])
                    gs (sent a) (rates a) (proc a))
    else None.

Definition agent_add (trace : list span) (a : agent) : option agent :=
  let '(p, err) := Payload.push encodedSize trace (deref a) in
  let a := mkAgent (ag_payload a) (ag_climit a) (ag_wg a)
                   (<[ag_payload a := p]> (heap a))
                   (goroutines a) (sent a) (rates a) (proc a) in
  let a := match err with
           | Some err =>
               let a := with_proc (statsd_call
                                     (Incr "datadog.tracer.traces_dropped"
                                           ["reason:encoding_error"%string])) a in
               with_proc (log_Error err) a
           | None => a
           end in
  if payloadSizeLimit <? Payload.size (deref a) then
    let a := with_proc (statsd_call (Incr "datadog.tracer.flush_triggered"
                                          ["reason:size"%string])) a in
    agent_flush a
  else Some a.

(** What [add] does before its size test. *)
Definition pushed (trace : list span) (a : agent) : agent :=
  let '(p, err) := Payload.push encodedSize trace (deref a) in
  let a := mkAgent (ag_payload a) (ag_climit a) (ag_wg a)
                   (<[ag_payload a := p]> (heap a))
                   (goroutines a) (sent a) (rates a) (proc a) in
  match err with
  | Some err =>
      with_proc (log_Error err)
        (with_proc (statsd_call (Incr "datadog.tracer.traces_dropped"
                                      ["reason:encoding_error"%string])) a)
  | None => a
  end.

(** [stop] is [h.wg.Wait()]: it returns once the counter is zero and
    blocks ([None]) until then. *)
Definition agent_stop (a : agent) : option agent :=
  if (ag_wg a =? 0)%nat then Some a else None.

(** The body of the goroutine between its [defer] and its return: the
    send and the metrics on its result. *)
Definition deliver (p : nat) (o : outcome) (a : agent) : agent :=
  let obj := default Payload.newPayload (heap a !! p) in
  let size := Payload.size obj in
  let count := Payload.itemCount obj in
  let a := mkAgent (ag_payload a) (ag_climit a) (ag_wg a) (heap a)
                   (goroutines a) (sent a ++ [p]) (rates a) (proc a) in
  match o with
  | SendError err =>
      let a := with_proc (statsd_call
                            (Count "datadog.tracer.traces_dropped" count
                                   ["reason:send_failed"%string])) a in
      with_proc (log_Error err) a
  | SendOK rc ratesError =>
      let a := with_proc (statsd_call
                            (Count "datadog.tracer.flush_bytes" size [])) a in
      let a := with_proc (statsd_call
                            (Count "datadog.tracer.flush_traces" count [])) a in
      let a := mkAgent (ag_payload a) (ag_climit a) (ag_wg a) (heap a)
                       (goroutines a) (sent a) (rates a ++ [rc]) (proc a) in
      if ratesError then
        with_proc (statsd_call (Incr "datadog.tracer.decode_error" [])) a
      else a
  end.

(** One step of one goroutine. *)
Inductive goroutine_step : agent -> agent -> Prop :=
| step_send i p o a :
    goroutines a !! i = Some (mkGoroutine p Sending) ->
    goroutine_step a (with_goroutine i (mkGoroutine p Releasing) (deliver p o a))
| step_release i p a :
    goroutines a !! i = Some (mkGoroutine p Releasing) ->
    goroutine_step a (with_goroutine i (mkGoroutine p Finishing) (receive_climit a))
| step_done i p a :
    goroutines a !! i = Some (mkGoroutine p Finishing) ->
    goroutine_step a (with_goroutine i (mkGoroutine p Reporting) (wg_Done a))
| step_timing i p a :
    goroutines a !! i = Some (mkGoroutine p Reporting) ->
    goroutine_step a
      (with_goroutine i (mkGoroutine p Exited)
         (with_proc (statsd_call (Timing "datadog.tracer.flush_duration" [])) a)).

(** One step of the program: a call of the writer's caller that
    returns, or a step of a goroutine.  The caller makes its calls one
    after the other. *)
Inductive agent_step : agent -> agent -> Prop :=
| step_add trace a a' : agent_add trace a = Some a' -> agent_step a a'
| step_flush a a' : agent_flush a = Some a' -> agent_step a a'
| step_stop a a' : agent_stop a = Some a' -> agent_step a a'
| step_goroutine a a' : goroutine_step a a' -> agent_step a a'.

Definition reachable (a : agent) : Prop :=
  exists e, rtc agent_step (newAgentTraceWriter e) a.

(** A goroutine holds one of the [concurrentConnectionLimit] slots from
    its start to its receive from [h.climit]: while it sends the
    payload and records the result. *)
Definition holdsSlot (g : goroutine) : bool :=
  match g_phase g with
  | Sending | Releasing => true
  | _ => false
  end.

(** [h.wg] counts a goroutine until its [h.wg.Done()]. *)
Definition counted (g : goroutine) : bool :=
  match g_phase g with
  | Sending | Releasing | Finishing => true
  | _ => false
  end.

Definition delivering (a : agent) : nat :=
  length (filter (fun g => holdsSlot g = true) (goroutines a)).

Definition holders (a : agent) (p : nat) : nat :=
  length (filter (fun g => (g_payload g =? p)%nat = true) (goroutines a)).

(** [frame a a']: from [a] to [a'] the field [h.payload] has only moved
    forward, and the payloads older than it, and the number of
    goroutines holding each of them, are the same. *)
Definition frame (a a' : agent) : Prop :=
  (ag_payload a <= ag_payload a')%nat /\
  forall p, (p < ag_payload a)%nat ->
            heap a' !! p = heap a !! p /\ holders a' p = holders a p.

(** What holds in every state the program reaches. *)
Record agent_inv (a : agent) : Prop := mkInv {
  inv_climit : ag_climit a = delivering a;
  inv_limit : (ag_climit a <= concurrentConnectionLimit)%nat;
  inv_wg : ag_wg a = length (filter (fun g => counted g = true) (goroutines a));
  inv_payload : (ag_payload a < length (heap a))%nat;
  inv_detached : Forall (fun g => (g_payload g < ag_payload a)%nat) (goroutines a);
  inv_distinct : NoDup (g_payload <$> goroutines a);
  inv_sent : Forall (fun p => (p < ag_payload a)%nat) (sent a)
}.

End AgentTraceWriter.

(** ** Concrete inputs for the agent writer *)

(** A wire encoding of 100 bytes per span that fails on no trace. *)
Definition encodedSize0 (trace : list span) : Z + error :=
  inl (100 * Z.of_nat (length trace)).

(** A new writer; the same after one trace was added (with a payload
    size limit of 1000 bytes and room for one connection); and after a
    flush that followed. *)
Definition agent0 : agent := newAgentTraceWriter process0.

Definition agent1 : agent :=
  default agent0 (agent_add encodedSize0 1000 1 [span1k] agent0).

Definition agent2 : agent := default agent1 (agent_flush 1 agent1).

(** A second trace is added while the goroutine of the flush has not
    run yet; then that goroutine runs to its end, its send succeeding. *)
Definition agent3 : agent :=
  default agent2 (agent_add encodedSize0 1000 1 [span1k; span100] agent2).

Definition agent4 : agent :=
  with_goroutine 0 (mkGoroutine 0 Releasing) (deliver 0 (SendOK [] false) agent3).

Definition agent5 : agent :=
  with_goroutine 0 (mkGoroutine 0 Finishing) (receive_climit agent4).

Definition agent6 : agent :=
  with_goroutine 0 (mkGoroutine 0 Reporting) (wg_Done agent5).

Definition agent7 : agent :=
  with_goroutine 0 (mkGoroutine 0 Exited)
    (with_proc (statsd_call (Timing "datadog.tracer.flush_duration" [])) agent6).

(** ** Further vocabulary *)

(** The sixteen digits [strconv.FormatUint] uses in base 16. *)
Definition isLowerHex (b : byte) : bool :=
  let n := Byte.to_N b in
  ((48 <=? n)%N && (n <=? 57)%N) || ((97 <=? n)%N && (n <=? 102)%N).

(** The trace arrays of a batch as they follow the opening text: the
    first bare, each later one after a comma and a space. *)
Fixpoint joinArrays (first : bool) (batch : list (list bytes)) : bytes :=
  match batch with
  | [] => []
  | texts :: rest =>
      (if first then str "[" else str ", [")
        ++ joinSpans 0 texts ++ str "]" ++ joinArrays false rest
  end.

(** The open payload that holds the trace arrays [batch]; [flush]
    closes it with [closing]. *)
Definition render (batch : list (list bytes)) : bytes :=
  tracesOpen ++ joinArrays true batch.

Definition closing : bytes := str "]}".

(** [holds h batch]: the buffer of [h] is the open payload of the
    arrays [batch], and [hasTraces] tells whether there is one. *)
Definition holds (h : lambdaTraceWriter) (batch : list (list bytes)) : Prop :=
  payload h = render batch /\
  hasTraces h = match batch with [] => false | _ :: _ => true end.

(** The payloads [ws] are closed payloads of the batches [batches],
    none of which is empty. *)
Definition payloadsOf (ws : list bytes) (batches : list (list (list bytes)))
  : Prop :=
  ws = map (fun b => render b ++ closing) batches /\
  Forall (fun b => b <> []) batches.

(** The spans a caller has passed to [add], in order. *)
Definition tracesOf (cs : list call) : list span :=
  flat_map (fun c => match c with Add trace => trace | Flush => [] end) cs.

(** ** [lambdaTraceWriter] with the panics of [bytes.Buffer]

    The same code with [Truncate] as Go has it: outside of
    [0 .. Len()] it panics, which is [None] here and ends the call. *)
Module Checked.

Definition Truncate (n : Z) (b : bytes) : option bytes :=
  if (0 <=? n) && (n <=? Buffer.Len b) then Some (take (Z.to_nat n) b)
  else None.

Section Checked.

Variable jsonMarshal : jsonSpan -> bytes + error.

Definition truncatePayload (n : Z) (h : lambdaTraceWriter)
  : option lambdaTraceWriter :=
  match Truncate n (payload h) with
  | Some p => Some (mkLambda p (hasTraces h))
  | None => None
  end.

Definition addSpan (s : span) (h : lambdaTraceWriter)
  : option (lambdaTraceWriter * option error) :=
  let js := toJsonSpan s in
  let '(p, err) := Encode jsonMarshal js (payload h) in
  match err with
  | Some e => Some (mkLambda p (hasTraces h), Some e)
  | None =>
      (* cut trailing newline *)
      match Truncate (Buffer.Len p - 1) p with
      | Some p => Some (mkLambda p (hasTraces h), None)
      | None => None
      end
  end.

Fixpoint addTrace_loop (startLen : Z) (i : nat) (trace : list span)
    (written : nat) (h : lambdaTraceWriter)
  : option (lambdaTraceWriter * (nat * option encodingError)) :=
  match trace with
  | [] => Some (h, (written, None))
  | s :: rest =>
      let l := Buffer.Len (payload h) in
      let h := if (i =? 0)%nat then h
               else mkLambda (Buffer.WriteByte ","%byte (payload h)) (hasTraces h) in
      match addSpan s h with
      | None => None
      | Some (h, Some e) =>
          match truncatePayload startLen h with
          | Some h => Some (h, (0%nat, Some (mkEncodingError e "encoding_failed")))
          | None => None
          end
      | Some (h, None) =>
          if payloadLimit - 2 <? Buffer.Len (payload h) then
            if (i =? 0)%nat && negb (hasTraces h) then
              match truncatePayload startLen h with
              | Some h =>
                  Some (h, (0%nat,
                            Some (mkEncodingError "span too large for payload"
                                                  "trace_too_large")))
              | None => None
              end
            else
              match truncatePayload l h with
              | Some h => Some (h, (written, None))
              | None => None
              end
          else addTrace_loop startLen (S i) rest (S written) h
      end
  end.

Definition addTrace (trace : list span) (h : lambdaTraceWriter)
  : option (lambdaTraceWriter * (nat * option encodingError)) :=
  let startLen := Buffer.Len (payload h) in
  let h := if negb (hasTraces h) then writePayload (str "[") h
           else writePayload (str ", [") h in
  match addTrace_loop startLen 0 trace 0 h with
  | None => None
  | Some (h, (written, Some e)) => Some (h, (written, Some e))
  | Some (h, (written, None)) =>
      let h := writePayload (str "]") h in
      Some (mkLambda (payload h) true, (written, None))
  end.

End Checked.

End Checked.

(** ** More concrete inputs *)

(** A small span, and one whose metrics hold a value JSON cannot
    express. *)
Definition smallSpan : span := namedSpan 7 "op".

Definition nanSpan : span :=
  {| Name := "op"; Service := ""; Resource := ""; Start := 0; Duration := 0;
     Meta := None; Metrics := Some [("rate"%string, NaN)];
     SpanID := 8; TraceID := 1; ParentID := 7; Error := 0 |}.

(** The state after a run of calls on a writer (the state before when
    the fuel of [add] was not enough, which does not happen). *)
Definition after_calls (cs : list call) (st : lambdaTraceWriter * process)
  : lambdaTraceWriter * process :=
  default st (calls Json.Marshal cs st).

(** A trace of two small spans, a flush, and a trace of one small
    span. *)
Definition calls0 : list call :=
  [Add [smallSpan; smallSpan]; Flush; Add [smallSpan]].

(** ** Further vocabulary for the agent writer *)

(** A goroutine has called [transport.send] once it is past its first
    phase. *)
Definition hasSent (g : goroutine) : bool :=
  match g_phase g with
  | Sending => false
  | _ => true
  end.

(** The payloads handed to goroutines that have called
    [transport.send]. *)
Definition sentBy (gs : list goroutine) : list nat :=
  g_payload <$> filter (fun g => hasSent g = true) gs.




(** Steps a goroutine still has to take. *)
Definition stepsLeft (g : goroutine) : nat :=
  match g_phase g with
  | Sending => 4
  | Releasing => 3
  | Finishing => 2
  | Reporting => 1
  | Exited => 0
  end.

(** More of what holds in every state the program reaches: [h.payload]
    is the payload allocated last, the detached payloads hold traces,
    and the payloads sent are those of the goroutines that have called
    [transport.send]. *)
Record agent_inv2 (a : agent) : Prop := mkInv2 {
  inv2_last : S (ag_payload a) = length (heap a);
  inv2_nonempty :
    forall p obj, (p < ag_payload a)%nat -> heap a !! p = Some obj ->
                  Payload.itemCount obj <> 0;
  inv2_sent : sent a ≡ₚ sentBy (goroutines a)
}.

(** * Facts about the buffer *)

Lemma Len_app (a b : bytes) : Buffer.Len (a ++ b) = Buffer.Len a + Buffer.Len b.
Proof. unfold Buffer.Len. rewrite length_app. lia. Qed.

Lemma Len_nonneg (b : bytes) : 0 <= Buffer.Len b.
Proof. unfold Buffer.Len. lia. Qed.

(** Truncating to the length recorded before a write undoes the write:
    the argument is in range. *)
Lemma Truncate_Write (b x : bytes) :
  Buffer.Truncate (Buffer.Len b) (b ++ x) = b.
Proof.
  unfold Buffer.Truncate, Buffer.Len. rewrite Nat2Z.id.
  rewrite take_app_le by lia. apply take_ge; lia.
Qed.

(** Cutting one byte after a write that ends in a newline removes that
    newline. *)
Lemma Truncate_cut_newline (b t : bytes) :
  Buffer.Truncate (Buffer.Len (b ++ t ++ [newline]) - 1) (b ++ t ++ [newline])
  = b ++ t.
Proof.
  rewrite app_assoc. rewrite <- (Truncate_Write (b ++ t) [newline]) at 3.
  f_equal. rewrite Len_app. unfold Buffer.Len at 2. simpl. lia.
Qed.

Lemma Len_nil : Buffer.Len [] = 0.
Proof. reflexivity. Qed.

Lemma Len_tracesOpen : Buffer.Len tracesOpen = 12.
Proof. reflexivity. Qed.

Lemma payload_new : payload newLambdaTraceWriter = tracesOpen.
Proof. reflexivity. Qed.

Lemma hasTraces_new : hasTraces newLambdaTraceWriter = false.
Proof. reflexivity. Qed.

(** * Facts about lambdaTraceWriter *)

Section LambdaFacts.

Variable jsonMarshal : jsonSpan -> bytes + error.

Lemma addSpan_ok s t h :
  encodes jsonMarshal s t ->
  addSpan jsonMarshal s h = (mkLambda (payload h ++ t) (hasTraces h), None).
Proof.
  intros E. unfold addSpan, Encode. rewrite E. unfold Buffer.WriteString.
  rewrite Truncate_cut_newline. reflexivity.
Qed.

Lemma addSpan_err s e h :
  jsonMarshal (toJsonSpan s) = inr e ->
  addSpan jsonMarshal s h = (mkLambda (payload h) (hasTraces h), Some e).
Proof. intros E. unfold addSpan, Encode. rewrite E. reflexivity. Qed.

(** ** The span loop of [addTrace]

    [b] is the buffer as it was when [addTrace] was entered, so that
    [startLen = Len b], and the buffer of [h] extends it. *)
Lemma addTrace_loop_spec trace : forall b x i h h' w e,
  payload h = b ++ x ->
  addTrace_loop jsonMarshal (Buffer.Len b) i trace i h = (h', (w, e)) ->
  match e with
  | Some err =>
      h' = mkLambda b (hasTraces h) /\ w = 0%nat /\ trace <> [] /\
      ((exists c, err = mkEncodingError c "encoding_failed") \/
       (err = mkEncodingError "span too large for payload" "trace_too_large"
        /\ i = 0%nat /\ hasTraces h = false /\
        exists s rest t, trace = s :: rest /\ encodes jsonMarshal s t /\
                         payloadLimit - 2 < Buffer.Len (payload h ++ t)))
  | None =>
      exists texts,
        w = (i + length texts)%nat /\
        Forall2 (encodes jsonMarshal) (take (length texts) trace) texts /\
        (length texts <= length trace)%nat /\
        h' = mkLambda (payload h ++ joinSpans i texts) (hasTraces h) /\
        (texts <> [] -> Buffer.Len (payload h') <= payloadLimit - 2) /\
        ((length texts < length trace)%nat ->
         (0 < i + length texts)%nat \/ hasTraces h = true)
  end.
Proof.
  induction trace as [|s rest IH]; intros b x i h h' w e Hb Hrun.
  - simpl in Hrun. inversion Hrun; subst. exists []. simpl.
    rewrite app_nil_r, Nat.add_0_r. destruct h'; simpl.
    repeat split; try constructor; try lia; try congruence.
  - cbn [addTrace_loop] in Hrun.
    set (h1 := if (i =? 0)%nat then h
               else mkLambda (Buffer.WriteByte ","%byte (payload h)) (hasTraces h))
      in Hrun.
    assert (Hh1 : payload h1 = payload h ++ (if (i =? 0)%nat then [] else str ",")
                  /\ hasTraces h1 = hasTraces h).
    { subst h1. destruct (i =? 0)%nat; simpl; [rewrite app_nil_r|]; auto. }
    destruct Hh1 as [Hp1 Ht1].
    destruct (jsonMarshal (toJsonSpan s)) as [t|c] eqn:E.
    + rewrite (addSpan_ok s t h1 E) in Hrun. cbn [payload hasTraces] in Hrun.
      destruct (payloadLimit - 2 <? Buffer.Len (payload h1 ++ t)) eqn:Hbig.
      * apply Z.ltb_lt in Hbig.
        destruct ((i =? 0)%nat && negb (hasTraces h1)) eqn:Hfirst.
        -- inversion Hrun; subst h' w e. clear Hrun.
           apply andb_true_iff in Hfirst as [Hi Hn].
           apply Nat.eqb_eq in Hi. apply negb_true_iff in Hn.
           unfold truncatePayload; cbn [payload hasTraces].
           rewrite Hp1, Hb. rewrite <- !app_assoc. rewrite Truncate_Write.
           rewrite Ht1. split; [reflexivity|]. split; [reflexivity|].
           split; [discriminate|]. right. split; [reflexivity|].
           split; [assumption|]. split; [congruence|].
           exists s, rest, t. split; [reflexivity|]. split; [assumption|].
           rewrite Hp1 in Hbig. subst i. cbn [Nat.eqb] in Hbig.
           rewrite app_nil_r in Hbig. rewrite <- Hb. exact Hbig.
        -- inversion Hrun; subst h' w e. clear Hrun.
           exists []. simpl. rewrite Nat.add_0_r, app_nil_r.
           unfold truncatePayload; cbn [payload hasTraces].
           rewrite Hp1. rewrite <- app_assoc. rewrite Truncate_Write.
           rewrite Ht1 in *. destruct h as [p ht]; cbn [payload hasTraces] in *.
           split; [reflexivity|]. split; [constructor|].
           split; [simpl; lia|]. split; [reflexivity|].
           split; [congruence|].
           intros _. apply andb_false_iff in Hfirst as [Hi|Hn].
           ++ apply Nat.eqb_neq in Hi. left. lia.
           ++ apply negb_false_iff in Hn. right. assumption.
      * apply Z.ltb_ge in Hbig.
        specialize (IH b (x ++ (if (i =? 0)%nat then [] else str ",") ++ t)
                       (S i) (mkLambda (payload h1 ++ t) (hasTraces h1)) h' w e).
        cbn [payload hasTraces] in IH.
        assert (Hpre : payload h1 ++ t
                       = b ++ x ++ (if (i =? 0)%nat then [] else str ",") ++ t).
        { rewrite Hp1, Hb. rewrite <- !app_assoc. reflexivity. }
        specialize (IH Hpre Hrun). destruct e as [err|].
        -- destruct IH as (Hh' & Hw & _ & Hreason).
           rewrite Ht1 in Hh'. split; [assumption|]. split; [assumption|].
           split; [discriminate|]. left.
           destruct Hreason as [Hc|(_ & Hi & _)]; [assumption|discriminate].
        -- destruct IH as (texts & Hw & Hall & Hlen & Hh' & Hfit & _).
           exists (t :: texts). simpl.
           split; [lia|]. split; [constructor; assumption|]. split; [lia|].
           split.
           { rewrite Hh', Hp1, Ht1. rewrite <- !app_assoc. reflexivity. }
           split.
           { intros _. destruct texts as [|t' texts'].
             - rewrite Hh'. simpl. rewrite app_nil_r. assumption.
             - apply Hfit. discriminate. }
           intros _. left. lia.
    + rewrite (addSpan_err s c h1 E) in Hrun.
      inversion Hrun; subst h' w e. clear Hrun.
      unfold truncatePayload; cbn [payload hasTraces].
      rewrite Hp1, Hb. rewrite <- app_assoc. rewrite Truncate_Write.
      rewrite Ht1. split; [reflexivity|]. split; [reflexivity|].
      split; [discriminate|]. left. exists c. reflexivity.
Qed.

(** ** [addTrace]

    A failed [addTrace] gives the writer back as it was; a successful one
    has appended one trace array holding the first [w] spans. *)
Lemma addTrace_spec trace h h' w e :
  addTrace jsonMarshal trace h = (h', (w, e)) ->
  match e with
  | Some err =>
      h' = h /\ w = 0%nat /\ trace <> [] /\
      ((exists c, err = mkEncodingError c "encoding_failed") \/
       (err = mkEncodingError "span too large for payload" "trace_too_large"
        /\ hasTraces h = false /\
        exists s rest t, trace = s :: rest /\ encodes jsonMarshal s t /\
                         payloadLimit - 2 < Buffer.Len (payload h ++ str "[" ++ t)))
  | None =>
      exists texts,
        w = length texts /\
        Forall2 (encodes jsonMarshal) (take w trace) texts /\
        (w <= length trace)%nat /\
        h' = appendEntry texts h /\
        (texts <> [] ->
         Buffer.Len (payload h ++ traceOpen h ++ joinSpans 0 texts)
         <= payloadLimit - 2) /\
        ((w < length trace)%nat -> (0 < w)%nat \/ hasTraces h = true)
  end.
Proof.
  unfold addTrace.
  set (h0 := if negb (hasTraces h) then writePayload (str "[") h
             else writePayload (str ", [") h).
  assert (Hp0 : payload h0 = payload h ++ traceOpen h).
  { subst h0. unfold traceOpen. destruct (hasTraces h) eqn:Ht; reflexivity. }
  assert (Ht0 : hasTraces h0 = hasTraces h).
  { subst h0. destruct (hasTraces h) eqn:Ht; simpl; congruence. }
  destruct (addTrace_loop jsonMarshal (Buffer.Len (payload h)) 0 trace 0 h0)
    as [h1 [w1 e1]] eqn:Hloop.
  pose proof (addTrace_loop_spec trace _ _ _ _ _ _ _ Hp0 Hloop) as Hspec.
  destruct e1 as [err|]; intros Hrun; inversion Hrun; subst h' w e; clear Hrun.
  - destruct Hspec as (Hh1 & Hw & Hne & Hreason).
    split. { rewrite Hh1, Ht0. destruct h; reflexivity. }
    split; [assumption|]. split; [assumption|].
    destruct Hreason as [Hc|(Herr & _ & Hn & s & rest & t & Htr & Henc & Hbig)].
    + left. assumption.
    + right. split; [assumption|]. split; [congruence|].
      exists s, rest, t. split; [assumption|]. split; [assumption|].
      rewrite Hp0 in Hbig. rewrite <- app_assoc in Hbig.
      unfold traceOpen in Hbig. rewrite <- Ht0, Hn in Hbig. exact Hbig.
  - destruct Hspec as (texts & Hw & Hall & Hlen & Hh1 & Hfit & Hzero).
    simpl in Hw. subst w1. exists texts.
    split; [reflexivity|]. split; [assumption|]. split; [assumption|].
    split.
    { rewrite Hh1. unfold appendEntry, traceEntry, writePayload,
        Buffer.WriteString. cbn [payload hasTraces].
      rewrite Hp0. rewrite <- !app_assoc. reflexivity. }
    split.
    { intros Hne. specialize (Hfit Hne). rewrite Hh1 in Hfit.
      cbn [payload] in Hfit. rewrite Hp0 in Hfit.
      rewrite <- app_assoc in Hfit. exact Hfit. }
    intros Hlt. specialize (Hzero Hlt). rewrite Ht0 in Hzero. exact Hzero.
Qed.

(** One iteration of the loop of [add] on a trace that is not empty. *)
Lemma add_loop_step fuel s rest h e :
  add_loop jsonMarshal (S fuel) (s :: rest) (h, e) =
  let '(h1, (written, err)) := addTrace jsonMarshal (s :: rest) h in
  match err with
  | Some err =>
      Some (h1, statsd_call
                  (Count "datadog.tracer.traces_dropped" 1
                         [String.append "reason:" (dropReason err)])
                  (log_Error (cause err) e))
  | None =>
      add_loop jsonMarshal fuel (drop written (s :: rest))
        (if (0 <? length (drop written (s :: rest)))%nat
         then flush (h1, e) else (h1, e))
  end.
Proof. reflexivity. Qed.

Lemma flush_hasTraces h e :
  hasTraces h = true ->
  flush (h, e) = (newLambdaTraceWriter, os_Stdout_Write (closed h) e).
Proof. intros H. unfold flush. rewrite H. reflexivity. Qed.

Lemma flush_appendEntry texts h e :
  flush (appendEntry texts h, e)
  = (newLambdaTraceWriter, os_Stdout_Write (closed (appendEntry texts h)) e).
Proof. apply flush_hasTraces. reflexivity. Qed.

(** ** Termination of [add]

    An iteration that writes no span happens only on a batch that
    already has traces, and is followed by a flush; so one unit of fuel
    per span, and one more when the batch has traces, is enough. *)
Lemma add_loop_terminates fuel : forall trace h e,
  (length trace + (if hasTraces h then 1 else 0) <= fuel)%nat ->
  exists st', add_loop jsonMarshal fuel trace (h, e) = Some st'.
Proof.
  induction fuel as [|fuel IH]; intros trace h e Hfuel.
  - destruct trace; [eexists; reflexivity | simpl in Hfuel; lia].
  - destruct trace as [|s rest]; [eexists; reflexivity|].
    rewrite add_loop_step.
    destruct (addTrace jsonMarshal (s :: rest) h) as [h1 [w err]] eqn:Hadd.
    pose proof (addTrace_spec _ _ _ _ _ Hadd) as Hspec.
    destruct err as [err|]; [eexists; reflexivity|].
    destruct Hspec as (texts & Hw & _ & Hlen & Hh1 & _ & Hzero).
    destruct (0 <? length (drop w (s :: rest)))%nat eqn:Hrem.
    + apply Nat.ltb_lt in Hrem. rewrite length_drop in Hrem.
      rewrite Hh1, flush_appendEntry. apply IH.
      rewrite length_drop. cbn [hasTraces newLambdaTraceWriter resetPayload].
      destruct Hzero as [Hpos|Htrue]; [lia| |].
      * lia.
      * rewrite Htrue in Hfuel. lia.
    + apply Nat.ltb_ge in Hrem.
      destruct (drop w (s :: rest)); [eexists; destruct fuel; reflexivity|].
      simpl in Hrem. lia.
Qed.

Lemma add_total trace st : exists st', add jsonMarshal trace st = Some st'.
Proof.
  destruct st as [h e]. apply add_loop_terminates.
  destruct (hasTraces h); lia.
Qed.

(** More fuel than needed changes nothing. *)
Lemma add_loop_fuel_mono fuel : forall fuel' trace st st',
  add_loop jsonMarshal fuel trace st = Some st' ->
  (fuel <= fuel')%nat ->
  add_loop jsonMarshal fuel' trace st = Some st'.
Proof.
  induction fuel as [|fuel IH]; intros fuel' trace [h e] st' Hrun Hle.
  - destruct trace; [|discriminate]. destruct fuel'; exact Hrun.
  - destruct trace as [|s rest]; [destruct fuel'; exact Hrun|].
    destruct fuel' as [|fuel']; [lia|].
    rewrite add_loop_step in *.
    destruct (addTrace jsonMarshal (s :: rest) h) as [h1 [w [err|]]];
      [exact Hrun|].
    apply IH; [exact Hrun | lia].
Qed.

(** On a batch without traces, a first span that does not fit makes
    [addTrace] give up with [trace_too_large] and the buffer restored. *)
Lemma addTrace_first_span_too_large s rest t h :
  hasTraces h = false ->
  encodes jsonMarshal s t ->
  payloadLimit - 2 < Buffer.Len (payload h) + 1 + Buffer.Len t ->
  addTrace jsonMarshal (s :: rest) h
  = (h, (0%nat, Some (mkEncodingError "span too large for payload"
                                      "trace_too_large"))).
Proof.
  intros Hn Henc Hbig. unfold addTrace. rewrite Hn. cbn [negb].
  cbn [addTrace_loop Nat.eqb].
  rewrite (addSpan_ok s t _ Henc).
  unfold writePayload, Buffer.WriteString. cbn [payload hasTraces].
  rewrite Hn. cbn [negb andb].
  replace (payloadLimit - 2 <? Buffer.Len ((payload h ++ str "[") ++ t))
    with true.
  - unfold truncatePayload. cbn [payload hasTraces].
    rewrite <- app_assoc, Truncate_Write. destruct h; simpl in *; congruence.
  - symmetry. apply Z.ltb_lt. rewrite !Len_app.
    change (Buffer.Len (str "[")) with 1. lia.
Qed.

(** ** Running [addTrace] forward

    The spans [done], whose texts fit, are written; the loop then ends,
    at the end of the trace or at a span whose text does not fit any
    more, unless that span is the first of the first trace. *)
Lemma addTrace_loop_run done texts :
  Forall2 (encodes jsonMarshal) done texts ->
  forall b x i h rest,
    payload h = b ++ x ->
    (texts = [] \/ Buffer.Len (payload h ++ joinSpans i texts) <= payloadLimit - 2) ->
    stops jsonMarshal i h texts rest ->
    addTrace_loop jsonMarshal (Buffer.Len b) i (done ++ rest) i h
    = (mkLambda (payload h ++ joinSpans i texts) (hasTraces h),
       ((i + length texts)%nat, None)).
Proof.
  induction 1 as [|s t done texts Hst Hall IH]; intros b x i h rest Hb Hfit Hstop.
  - simpl. rewrite app_nil_r, Nat.add_0_r.
    destruct rest as [|s rest]; [destruct h; reflexivity|].
    destruct Hstop as (t & Ht & Hbig & Hpos). cbn [addTrace_loop].
    rewrite (addSpan_ok s t _ Ht). simpl in Hbig. rewrite app_nil_r in Hbig.
    rewrite Nat.add_0_r in Hpos.
    assert (Hp : payload (if (i =? 0)%nat then h
                          else mkLambda (Buffer.WriteByte ","%byte (payload h))
                                        (hasTraces h))
                 = payload h ++ (if (i =? 0)%nat then [] else str ",")).
    { destruct (i =? 0)%nat; simpl; [rewrite app_nil_r|]; reflexivity. }
    assert (Ht' : hasTraces (if (i =? 0)%nat then h
                             else mkLambda (Buffer.WriteByte ","%byte (payload h))
                                           (hasTraces h))
                  = hasTraces h).
    { destruct (i =? 0)%nat; reflexivity. }
    cbn [payload hasTraces]. rewrite Hp, Ht'. rewrite <- app_assoc.
    replace (payloadLimit - 2 <? _) with true by (symmetry; apply Z.ltb_lt; exact Hbig).
    replace ((i =? 0)%nat && negb (hasTraces h)) with false.
    + unfold truncatePayload. cbn [payload hasTraces].
      rewrite Truncate_Write. destruct h; reflexivity.
    + symmetry. apply andb_false_iff. destruct Hpos as [Hpos|Hpos].
      * left. apply Nat.eqb_neq. lia.
      * right. rewrite Hpos. reflexivity.
  - cbn [app addTrace_loop]. rewrite (addSpan_ok s t _ Hst).
    assert (Hp : payload (if (i =? 0)%nat then h
                          else mkLambda (Buffer.WriteByte ","%byte (payload h))
                                        (hasTraces h))
                 = payload h ++ (if (i =? 0)%nat then [] else str ",")).
    { destruct (i =? 0)%nat; simpl; [rewrite app_nil_r|]; reflexivity. }
    assert (Ht' : hasTraces (if (i =? 0)%nat then h
                             else mkLambda (Buffer.WriteByte ","%byte (payload h))
                                           (hasTraces h))
                  = hasTraces h).
    { destruct (i =? 0)%nat; reflexivity. }
    cbn [payload hasTraces]. rewrite Hp, Ht'. rewrite <- app_assoc.
    destruct Hfit as [Hnil|Hfit]; [discriminate|].
    cbn [joinSpans] in Hfit.
    assert (Hsmall : Buffer.Len (payload h ++ (if (i =? 0)%nat then [] else str ",") ++ t)
                     <= payloadLimit - 2).
    { rewrite !Len_app in *. pose proof (Len_nonneg (joinSpans (S i) texts)). lia. }
    replace (payloadLimit - 2 <? _) with false by (symmetry; apply Z.ltb_ge; exact Hsmall).
    rewrite (IH b (x ++ (if (i =? 0)%nat then [] else str ",") ++ t) (S i) _ rest).
    + cbn [payload hasTraces joinSpans length].
      replace (S i + length texts)%nat with (i + S (length texts))%nat by lia.
      rewrite <- !app_assoc. reflexivity.
    + cbn [payload]. rewrite Hb, <- !app_assoc. reflexivity.
    + right. cbn [payload]. rewrite <- ?app_assoc. rewrite <- ?app_assoc in Hfit.
      exact Hfit.
    + destruct rest as [|s' rest]; [exact I|].
      destruct Hstop as (t' & Ht'' & Hbig & Hpos). exists t'.
      split; [exact Ht''|]. cbn [payload hasTraces]. split.
      * cbn [app joinSpans] in Hbig. rewrite <- ?app_assoc.
        rewrite <- ?app_assoc in Hbig. exact Hbig.
      * left. lia.
Qed.

Lemma addTrace_run done texts rest h :
  Forall2 (encodes jsonMarshal) done texts ->
  (texts = [] \/
   Buffer.Len (payload h ++ traceOpen h ++ joinSpans 0 texts) <= payloadLimit - 2) ->
  stops jsonMarshal 0 (mkLambda (payload h ++ traceOpen h) (hasTraces h)) texts rest ->
  addTrace jsonMarshal (done ++ rest) h
  = (appendEntry texts h, (length texts, None)).
Proof.
  intros Hall Hfit Hstop. unfold addTrace.
  set (h0 := if negb (hasTraces h) then writePayload (str "[") h
             else writePayload (str ", [") h).
  assert (Hh0 : h0 = mkLambda (payload h ++ traceOpen h) (hasTraces h)).
  { subst h0. unfold traceOpen. destruct (hasTraces h) eqn:Ht; simpl;
      unfold writePayload; rewrite Ht; reflexivity. }
  rewrite Hh0.
  rewrite (addTrace_loop_run done texts Hall (payload h) (traceOpen h) 0 _ rest).
  - cbn [Nat.add payload hasTraces]. unfold appendEntry, traceEntry, writePayload,
      Buffer.WriteString. cbn [payload]. rewrite <- !app_assoc. reflexivity.
  - reflexivity.
  - cbn [payload]. rewrite <- app_assoc. exact Hfit.
  - exact Hstop.
Qed.

(** ** Running [add] forward *)

(** The whole trace fits into the batch. *)
Lemma add_loop_fits fuel trace texts h e :
  Forall2 (encodes jsonMarshal) trace texts ->
  Buffer.Len (payload h ++ traceOpen h ++ joinSpans 0 texts) <= payloadLimit - 2 ->
  trace <> [] ->
  add_loop jsonMarshal (S fuel) trace (h, e) = Some (appendEntry texts h, e).
Proof.
  intros Hall Hfit Hne. destruct trace as [|s rest]; [congruence|].
  rewrite add_loop_step.
  rewrite <- (app_nil_r (s :: rest)).
  rewrite (addTrace_run (s :: rest) texts [] h Hall (or_intror Hfit) I).
  rewrite app_nil_r. rewrite <- (Forall2_length _ _ _ Hall).
  rewrite drop_all. simpl. destruct fuel; reflexivity.
Qed.

(** The spans [done] fit, the next span does not: the batch is flushed
    and the loop goes on with the rest. *)
Lemma add_loop_splits fuel done texts s rest h e :
  Forall2 (encodes jsonMarshal) done texts ->
  (texts = [] \/
   Buffer.Len (payload h ++ traceOpen h ++ joinSpans 0 texts) <= payloadLimit - 2) ->
  stops jsonMarshal 0 (mkLambda (payload h ++ traceOpen h) (hasTraces h)) texts (s :: rest) ->
  add_loop jsonMarshal (S fuel) (done ++ s :: rest) (h, e)
  = add_loop jsonMarshal fuel (s :: rest)
      (newLambdaTraceWriter, os_Stdout_Write (closed (appendEntry texts h)) e).
Proof.
  intros Hall Hfit Hstop.
  destruct (done ++ s :: rest) as [|s0 rest0] eqn:Htrace.
  { destruct done; discriminate. }
  rewrite add_loop_step. rewrite <- Htrace.
  rewrite (addTrace_run done texts (s :: rest) h Hall Hfit Hstop).
  rewrite <- (Forall2_length _ _ _ Hall).
  rewrite drop_app_length. cbn [length Nat.ltb Nat.leb].
  rewrite flush_appendEntry. reflexivity.
Qed.

(** The first span of the first trace of a batch does not fit. *)
Lemma add_loop_drops fuel s rest t h e :
  hasTraces h = false ->
  encodes jsonMarshal s t ->
  payloadLimit - 2 < Buffer.Len (payload h) + 1 + Buffer.Len t ->
  add_loop jsonMarshal (S fuel) (s :: rest) (h, e)
  = Some (h, mkProcess (stdout e)
                       (statsd e ++ [Count "datadog.tracer.traces_dropped" 1
                                           ["reason:trace_too_large"%string]])
                       (errors e ++ ["span too large for payload"%string])).
Proof.
  intros Hn Henc Hbig. rewrite add_loop_step.
  rewrite (addTrace_first_span_too_large s rest t h Hn Henc Hbig). reflexivity.
Qed.

Lemma resetPayload_new h : resetPayload h = newLambdaTraceWriter.
Proof. reflexivity. Qed.

(** ** What [add] leaves behind *)
Lemma add_loop_outcome fuel : forall trace st st',
  add_loop jsonMarshal fuel trace st = Some st' ->
  (exists entries, wroteAll jsonMarshal trace st st' entries) \/
  (exists entries err, droppedRest jsonMarshal trace st st' entries err).
Proof.
  induction fuel as [|fuel IH]; intros trace [h e] [h' e'] Hrun.
  - destruct trace; [|discriminate]. inversion Hrun; subst.
    left. exists []. repeat split; try constructor.
    exists []. simpl. rewrite app_nil_r. destruct e'; auto.
  - destruct trace as [|s rest].
    { inversion Hrun; subst. left. exists [].
      repeat split; try constructor.
      exists []. simpl. rewrite app_nil_r. destruct e'; auto. }
    rewrite add_loop_step in Hrun.
    destruct (addTrace jsonMarshal (s :: rest) h) as [h1 [w err]] eqn:Hadd.
    pose proof (addTrace_spec _ _ _ _ _ Hadd) as Hspec.
    destruct err as [err|].
    + (* the trace is dropped at once *)
      destruct Hspec as (Hh1 & _ & Hne & Hreason).
      inversion Hrun; subst h' e' h1. clear Hrun.
      right. exists [], err. split.
      { exists [], (s :: rest). repeat split; [assumption | constructor]. }
      split; [exact I|]. split.
      { destruct Hreason as [[c ->]|[-> _]]; [left|right]; reflexivity. }
      exists []. split; [reflexivity|]. simpl. rewrite app_nil_r. reflexivity.
    + destruct Hspec as (texts & Hw & Hall & Hlen & Hh1 & _ & Hzero).
      pose proof (take_drop w (s :: rest)) as Hsplit.
      destruct (drop w (s :: rest)) as [|s' rest'] eqn:Hdrop.
      * (* everything fitted into one trace array *)
        simpl in Hrun. assert (Hst : (h', e') = (h1, e)).
        { destruct fuel; simpl in Hrun; congruence. }
        inversion Hst; subst h' e'. clear Hrun Hst.
        rewrite app_nil_r in Hsplit. rewrite Hsplit in Hall.
        left. exists [texts]. split; [simpl; rewrite app_nil_r; exact Hall|].
        split.
        { split; [|constructor]. intros ->. simpl in Hw. subst w.
          simpl in Hsplit. discriminate. }
        split; [split; discriminate|].
        exists []. split; [simpl; congruence|].
        simpl. rewrite app_nil_r. destruct e; reflexivity.
      * (* the batch is flushed and the rest goes to a new one *)
        assert (Hlt : (w < length (s :: rest))%nat).
        { apply (f_equal length) in Hdrop. rewrite length_drop in Hdrop.
          simpl in Hdrop. simpl. lia. }
        specialize (Hzero Hlt).
        cbn [length Nat.ltb Nat.leb] in Hrun.
        rewrite Hh1, flush_appendEntry in Hrun.
        apply IH in Hrun.
        assert (Hwf : entriesWellFormed h (texts :: nil) /\
                      (texts = [] -> hasTraces h = true)).
        { assert (texts = [] -> hasTraces h = true).
          { intros ->. simpl in Hw. destruct Hzero; [lia|assumption]. }
          split; [split; [assumption|constructor]|assumption]. }
        destruct Hwf as [_ Hfirst].
        destruct Hrun as [(entries & Hall' & Hwf' & Hnil & ws & Hws & He')
                         |(entries & err & (done & rest0 & Hd & Hr & Hall')
                           & Hwf' & Hreason & ws & Hws & He')];
          cbn [fst snd] in *.
        -- left. exists (texts :: entries).
           assert (Hne : entries <> []).
           { intros ->. destruct Hnil as [Hnil _].
             specialize (Hnil eq_refl). discriminate. }
           split.
           { rewrite <- Hsplit. simpl. apply Forall2_app; assumption. }
           split.
           { split; [assumption|]. destruct entries as [|c cs]; [congruence|].
             destruct Hwf' as [Hc Hcs]. constructor; [|assumption].
             intros Hcnil. specialize (Hc Hcnil). discriminate. }
           split; [split; discriminate|].
           exists (closed (appendEntry texts h) :: ws). split.
           { cbn [writeEntries]. destruct entries as [|c cs]; [congruence|].
             rewrite resetPayload_new, Hws. reflexivity. }
           rewrite He'. simpl. rewrite <- app_assoc. reflexivity.
        -- right. exists (texts :: entries), err. split.
           { exists (take w (s :: rest) ++ done), rest0.
             split; [rewrite <- app_assoc, <- Hd; symmetry; exact Hsplit|].
             split; [assumption|]. simpl. apply Forall2_app; assumption. }
           split.
           { split; [assumption|]. destruct entries as [|c cs]; [constructor|].
             destruct Hwf' as [Hc Hcs]. constructor; [|assumption].
             intros Hcnil. specialize (Hc Hcnil). discriminate. }
           split; [assumption|].
           exists (closed (appendEntry texts h) :: ws). split.
           { cbn [flushEntries]. rewrite resetPayload_new, Hws. reflexivity. }
           rewrite He'. simpl. rewrite <- app_assoc. reflexivity.
Qed.

(** ** How long a written payload can be

    Between two calls the buffer holds at most [payloadLimit - 1]
    bytes, and no payload written is longer than [payloadLimit + 5]
    bytes: the check of [addTrace] leaves room for the two bytes that
    close the batch, not for the bracket that closes the trace array,
    nor for the empty array left behind when the first span of a trace
    does not fit into a batch that has traces. *)
Lemma wrote_refl e bound : wrote e e bound.
Proof. exists []. rewrite app_nil_r. split; [reflexivity|constructor]. Qed.

Lemma wrote_trans e1 e2 e3 bound :
  wrote e1 e2 bound -> wrote e2 e3 bound -> wrote e1 e3 bound.
Proof.
  intros (ws & H1 & F1) (ws' & H2 & F2). exists (ws ++ ws'). split.
  - rewrite H2, H1, app_assoc. reflexivity.
  - apply Forall_app. split; assumption.
Qed.

Lemma wrote_one e w bound :
  Buffer.Len w <= bound -> wrote e (os_Stdout_Write w e) bound.
Proof.
  intros Hw. exists [w]. split; [reflexivity|]. constructor; [exact Hw|constructor].
Qed.

Lemma bufferOK_new : bufferOK newLambdaTraceWriter.
Proof. unfold bufferOK. rewrite payload_new, Len_tracesOpen. unfold payloadLimit. lia. Qed.

Lemma Len_traceOpen h : 1 <= Buffer.Len (traceOpen h) <= 3.
Proof. unfold traceOpen. destruct (hasTraces h); vm_compute; split; discriminate. Qed.

Lemma flush_bound h e :
  bufferOK h ->
  bufferOK (fst (flush (h, e))) /\
  wrote e (snd (flush (h, e))) (payloadLimit + 5).
Proof.
  intros Hok. destruct (hasTraces h) eqn:Ht.
  - rewrite (flush_hasTraces h e Ht). cbn [fst snd].
    split; [apply bufferOK_new|]. apply wrote_one.
    unfold closed. rewrite Len_app. change (Buffer.Len (str "]}")) with 2.
    unfold bufferOK in Hok. lia.
  - unfold flush. rewrite Ht. cbn [negb fst snd].
    split; [exact Hok|apply wrote_refl].
Qed.

Lemma add_loop_bound fuel : forall trace h e h' e',
  bufferOK h ->
  add_loop jsonMarshal fuel trace (h, e) = Some (h', e') ->
  bufferOK h' /\ wrote e e' (payloadLimit + 5).
Proof.
  induction fuel as [|fuel IH]; intros trace h e h' e' Hok Hrun.
  - destruct trace; [|discriminate]. inversion Hrun; subst.
    split; [exact Hok|apply wrote_refl].
  - destruct trace as [|s rest].
    { inversion Hrun; subst. split; [exact Hok|apply wrote_refl]. }
    rewrite add_loop_step in Hrun.
    destruct (addTrace jsonMarshal (s :: rest) h) as [h1 [w err]] eqn:Hadd.
    pose proof (addTrace_spec _ _ _ _ _ Hadd) as Hspec.
    destruct err as [err|].
    + destruct Hspec as (-> & _). inversion Hrun; subst.
      split; [exact Hok|]. exists []. simpl. rewrite app_nil_r.
      split; [reflexivity|constructor].
    + destruct Hspec as (texts & Hw & _ & Hlen & Hh1 & Hfit & _).
      pose proof (Len_traceOpen h) as Hopen. unfold bufferOK in Hok.
      assert (Hentry : Buffer.Len (payload h1)
                       <= payloadLimit + 3 /\
                       (texts <> [] -> Buffer.Len (payload h1) <= payloadLimit - 1)).
      { rewrite Hh1. unfold appendEntry, traceEntry. cbn [payload].
        rewrite !Len_app. change (Buffer.Len (str "]")) with 1.
        destruct texts as [|t texts].
        - simpl joinSpans. rewrite Len_nil. split; [lia|congruence].
        - assert (Hne : t :: texts <> []) by discriminate.
          specialize (Hfit Hne). rewrite !Len_app in Hfit. split; lia. }
      destruct Hentry as [Hmax Hfull].
      destruct (drop w (s :: rest)) as [|s' rest'] eqn:Hdrop.
      * assert (Hst : (h', e') = (h1, e)).
        { destruct fuel; simpl in Hrun; congruence. }
        inversion Hst; subst h' e'. split; [|apply wrote_refl].
        apply Hfull. intros ->. simpl in Hw. subst w. simpl in Hdrop.
        discriminate.
      * cbn [length Nat.ltb Nat.leb] in Hrun.
        assert (Hflush : flush (h1, e)
                         = (newLambdaTraceWriter, os_Stdout_Write (closed h1) e)).
        { apply flush_hasTraces. rewrite Hh1. reflexivity. }
        rewrite Hflush in Hrun.
        destruct (IH _ _ _ _ _ bufferOK_new Hrun) as [Hok' Hwrote].
        split; [exact Hok'|].
        eapply wrote_trans; [|exact Hwrote]. apply wrote_one.
        unfold closed. rewrite Len_app. change (Buffer.Len (str "]}")) with 2.
        lia.
Qed.

Lemma calls_bound cs : forall h e h' e',
  bufferOK h ->
  calls jsonMarshal cs (h, e) = Some (h', e') ->
  bufferOK h' /\ wrote e e' (payloadLimit + 5).
Proof.
  induction cs as [|[trace|] cs IH]; intros h e h' e' Hok Hrun.
  - inversion Hrun; subst. split; [exact Hok|apply wrote_refl].
  - cbn [calls] in Hrun.
    destruct (add jsonMarshal trace (h, e)) as [[h1 e1]|] eqn:Hadd;
      [|discriminate].
    destruct (add_loop_bound _ _ _ _ _ _ Hok Hadd) as [Hok1 Hw1].
    destruct (IH _ _ _ _ Hok1 Hrun) as [Hok' Hw'].
    split; [exact Hok'|]. eapply wrote_trans; eassumption.
  - cbn [calls] in Hrun.
    destruct (flush_bound h e Hok) as [Hok1 Hw1].
    destruct (flush (h, e)) as [h1 e1] eqn:Hf. cbn [fst snd] in *.
    destruct (IH _ _ _ _ Hok1 Hrun) as [Hok' Hw'].
    split; [exact Hok'|]. eapply wrote_trans; eassumption.
Qed.

(** Whatever is added to a new writer and whenever it is flushed, no
    payload written is longer than [payloadLimit + 5] bytes. *)
Lemma payloads_within_limit_plus_5 cs e h' e' :
  calls jsonMarshal cs (newLambdaTraceWriter, e) = Some (h', e') ->
  wrote e e' (payloadLimit + 5).
Proof. intros Hrun. eapply calls_bound; [apply bufferOK_new|exact Hrun]. Qed.

End LambdaFacts.

Lemma writeEntries_length entries : forall h,
  length (fst (writeEntries entries h)) = pred (length entries).
Proof.
  induction entries as [|c [|c' rest] IH]; intros h; try reflexivity.
  specialize (IH (resetPayload (appendEntry c h))).
  change (writeEntries (c :: c' :: rest) h)
    with (let '(ws, h') := writeEntries (c' :: rest) (resetPayload (appendEntry c h))
          in (closed (appendEntry c h) :: ws, h')).
  destruct (writeEntries (c' :: rest) (resetPayload (appendEntry c h))) as [ws h'].
  cbn [fst length] in *. rewrite IH. reflexivity.
Qed.

(** After a flush of every entry the buffer is in its reset state. *)
Lemma flushEntries_cases entries h :
  (entries = [] /\ flushEntries entries h = ([], h)) \/
  (exists w ws, flushEntries entries h = (w :: ws, newLambdaTraceWriter)).
Proof.
  revert h. induction entries as [|c rest IH]; intros h; [left; auto|].
  right. cbn [flushEntries].
  destruct (IH (resetPayload (appendEntry c h))) as [[-> ->]|(w & ws & ->)];
    eexists; eexists; reflexivity.
Qed.

(** * The concrete inputs *)

Lemma add_after_add trace st :
  add Json.Marshal trace st = Some (after_add trace st).
Proof.
  unfold after_add. destruct (add_total Json.Marshal trace st) as [st' ->].
  reflexivity.
Qed.

Lemma after_add_eq trace st st' :
  add Json.Marshal trace st = Some st' -> after_add trace st = st'.
Proof. unfold after_add. intros ->. reflexivity. Qed.

(** The encoder accepts every span without maps. *)
Lemma encodes_namedSpan id name :
  encodes Json.Marshal (namedSpan id name) (jsonText (namedSpan id name)).
Proof. reflexivity. Qed.

Lemma escape_letters n :
  flat_map Json.escape (repeat "a"%byte n) = repeat "a"%byte n.
Proof.
  induction n as [|n IH]; [reflexivity|].
  cbn [repeat flat_map]. rewrite IH. reflexivity.
Qed.

Lemma Len_encodeString_letters n :
  Buffer.Len (Json.encodeString (letters n)) = Z.of_nat n + 2.
Proof.
  unfold Json.encodeString, letters, str.
  rewrite list_byte_of_string_of_list_byte, escape_letters.
  rewrite !Len_app. unfold Buffer.Len. rewrite repeat_length. simpl. lia.
Qed.

(** The JSON text of a span without maps: 140 bytes around the span
    identifier and the name. *)
Lemma Len_jsonText_named id name :
  Buffer.Len (jsonText (namedSpan id name))
  = 140 + Buffer.Len (FormatUint16 id) + Buffer.Len (Json.encodeString name).
Proof.
  unfold jsonText, Json.Marshal.
  cbn [toJsonSpan namedSpan js_TraceID js_SpanID js_ParentID js_Name js_Resource
       js_Error js_Meta js_Metrics js_Start js_Duration js_Service Json.encodeMap
       Name Service Resource Start Duration Meta Metrics SpanID TraceID ParentID
       Error].
  unfold hexInt_MarshalJSON. rewrite !Len_app.
  generalize (Buffer.Len (FormatUint16 id))
             (Buffer.Len (Json.encodeString name)).
  intros a b. vm_compute Buffer.Len. lia.
Qed.

Lemma Len_sizedSpan id n :
  Buffer.Len (FormatUint16 id) = 1 -> 143 <= n ->
  Buffer.Len (jsonText (sizedSpan id n)) = n.
Proof.
  intros Hid Hn. unfold sizedSpan.
  rewrite Len_jsonText_named, Len_encodeString_letters, Hid. lia.
Qed.

Lemma encodes_sizedSpan id n :
  encodes Json.Marshal (sizedSpan id n) (jsonText (sizedSpan id n)).
Proof. apply encodes_namedSpan. Qed.

Lemma Len_fillingSpan : Buffer.Len (jsonText fillingSpan) = 262129.
Proof. unfold fillingSpan. rewrite Len_sizedSpan; reflexivity || discriminate. Qed.

Lemma Len_hugeSpan : Buffer.Len (jsonText hugeSpan) = 262287.
Proof. unfold hugeSpan. rewrite Len_sizedSpan; reflexivity || discriminate. Qed.

Lemma Len_span200a : Buffer.Len (jsonText span200a) = 204800.
Proof. unfold span200a. rewrite Len_sizedSpan; reflexivity || discriminate. Qed.

Lemma Len_span200b : Buffer.Len (jsonText span200b) = 204800.
Proof. unfold span200b. rewrite Len_sizedSpan; reflexivity || discriminate. Qed.

Lemma Len_span1k : Buffer.Len (jsonText span1k) = 1024.
Proof. unfold span1k. rewrite Len_sizedSpan; reflexivity || discriminate. Qed.

Lemma Len_span100 : Buffer.Len (jsonText span100) = 102400.
Proof. unfold span100. rewrite Len_sizedSpan; reflexivity || discriminate. Qed.

Lemma Len_str1 (c : Ascii.ascii) : Buffer.Len (str (String c EmptyString)) = 1.
Proof. reflexivity. Qed.

Lemma Len_str2 (c d : Ascii.ascii) :
  Buffer.Len (str (String c (String d EmptyString))) = 2.
Proof. reflexivity. Qed.

Lemma Len_str3 (c d e : Ascii.ascii) :
  Buffer.Len (str (String c (String d (String e EmptyString)))) = 3.
Proof. reflexivity. Qed.

Create Rewrite HintDb len.
#[local] Hint Rewrite Len_app Len_nil Len_str1 Len_str2 Len_str3 Len_tracesOpen
  Len_fillingSpan Len_hugeSpan Len_span200a Len_span200b Len_span1k Len_span100
  : len.

(** Lengths of buffers built from the concrete spans. *)
Ltac len :=
  unfold lambda0;
  repeat (unfold closed, appendEntry, traceEntry, traceOpen;
          rewrite ?payload_new, ?hasTraces_new;
          cbn [payload hasTraces joinSpans Nat.eqb fst snd]);
  autorewrite with len; unfold payloadLimit; lia.

(** The concrete spans encode. *)
Ltac enc :=
  repeat (constructor 2; [apply encodes_sizedSpan|]); constructor 1.

(** One span that fills a new buffer. *)
Lemma after_add_filling :
  after_add [fillingSpan] lambda0
  = (appendEntry [jsonText fillingSpan] newLambdaTraceWriter, process0).
Proof.
  apply after_add_eq. apply add_loop_fits.
  - enc.
  - len.
  - discriminate.
Qed.

(** A second trace that does not fit: the batch is flushed with an
    empty trace array at its end. *)
Lemma after_add_filling_1k :
  after_add [span1k] (after_add [fillingSpan] lambda0)
  = (appendEntry [jsonText span1k] newLambdaTraceWriter,
     os_Stdout_Write
       (closed (appendEntry []
                  (appendEntry [jsonText fillingSpan] newLambdaTraceWriter)))
       process0).
Proof.
  rewrite after_add_filling. apply after_add_eq. unfold add. cbn [length].
  rewrite (add_loop_splits Json.Marshal 1 [] [] span1k []).
  - apply add_loop_fits.
    + enc.
    + len.
    + discriminate.
  - enc.
  - left. reflexivity.
  - exists (jsonText span1k). split; [apply encodes_sizedSpan|]. split.
    + cbn [app]. len.
    + right. reflexivity.
Qed.

Lemma after_add_200a :
  after_add [span200a] lambda0
  = (appendEntry [jsonText span200a] newLambdaTraceWriter, process0).
Proof.
  apply after_add_eq. apply add_loop_fits.
  - enc.
  - len.
  - discriminate.
Qed.

(** The second span of 200 KiB does not fit with the first. *)
Lemma after_add_200a_200b :
  after_add [span200a; span200b] lambda0
  = (appendEntry [jsonText span200b] newLambdaTraceWriter,
     os_Stdout_Write
       (closed (appendEntry [jsonText span200a] newLambdaTraceWriter)) process0).
Proof.
  apply after_add_eq. unfold add, lambda0. cbn [length].
  rewrite (add_loop_splits Json.Marshal 2 [span200a] [jsonText span200a]
             span200b []).
  - apply add_loop_fits.
    + enc.
    + len.
    + discriminate.
  - enc.
  - right. len.
  - exists (jsonText span200b). split; [apply encodes_sizedSpan|]. split.
    + cbn [app]. len.
    + left. simpl. lia.
Qed.

(** A trace that does not fit with the span of 200 KiB in the batch. *)
Lemma after_add_200a_100 :
  after_add [span100] (after_add [span200a] lambda0)
  = (appendEntry [jsonText span100] newLambdaTraceWriter,
     os_Stdout_Write
       (closed (appendEntry []
                  (appendEntry [jsonText span200a] newLambdaTraceWriter)))
       process0).
Proof.
  rewrite after_add_200a. apply after_add_eq. unfold add. cbn [length].
  rewrite (add_loop_splits Json.Marshal 1 [] [] span100 []).
  - apply add_loop_fits.
    + enc.
    + len.
    + discriminate.
  - enc.
  - left. reflexivity.
  - exists (jsonText span100). split; [apply encodes_sizedSpan|]. split.
    + cbn [app]. len.
    + right. reflexivity.
Qed.

(** A trace whose first span fits with the batch and whose second span
    fits nowhere. *)
Lemma after_add_200a_1k_huge :
  after_add [span1k; hugeSpan] (after_add [span200a] lambda0)
  = (newLambdaTraceWriter,
     mkProcess
       [closed (appendEntry [jsonText span1k]
                  (appendEntry [jsonText span200a] newLambdaTraceWriter))]
       [Count "datadog.tracer.traces_dropped" 1 ["reason:trace_too_large"%string]]
       ["span too large for payload"%string]).
Proof.
  rewrite after_add_200a. apply after_add_eq. unfold add. cbn [length].
  rewrite (add_loop_splits Json.Marshal 2 [span1k] [jsonText span1k]
             hugeSpan []).
  - rewrite (add_loop_drops Json.Marshal 1 hugeSpan [] (jsonText hugeSpan)).
    + reflexivity.
    + reflexivity.
    + apply encodes_sizedSpan.
    + len.
  - enc.
  - right. len.
  - exists (jsonText hugeSpan). split; [apply encodes_sizedSpan|]. split.
    + cbn [app]. len.
    + left. simpl. lia.
Qed.

(** The first scenario of the specification: three spans of 1 KiB
    added to a new writer leave it in one trace array, which one flush
    writes in a single payload before it resets the buffer. *)
Example three_small_spans_one_array :
  flush (after_add [span1k; span1k; span1k] lambda0)
  = (newLambdaTraceWriter,
     mkProcess [tracesOpen ++ str "[" ++ jsonText span1k ++ str ","
                  ++ jsonText span1k ++ str "," ++ jsonText span1k
                  ++ str "]" ++ str "]}"]
               [] []).
Proof.
  rewrite (after_add_eq [span1k; span1k; span1k] lambda0
             (appendEntry [jsonText span1k; jsonText span1k; jsonText span1k]
                          newLambdaTraceWriter, process0)).
  - rewrite flush_appendEntry. unfold closed, appendEntry, traceEntry, traceOpen.
    rewrite payload_new, hasTraces_new.
    cbn [payload joinSpans Nat.eqb os_Stdout_Write process0 stdout statsd errors].
    rewrite <- !app_assoc. reflexivity.
  - apply add_loop_fits; [enc|len|discriminate].
Qed.

(** * Facts about agentTraceWriter *)

(** Replacing one element of a list changes a count by what the old and
    the new element contribute. *)
Lemma count_insert {A} (f : A -> bool) (l : list A) : forall i x y,
  l !! i = Some x ->
  (length (filter (fun g => f g = true) (<[i := y]> l)) + Nat.b2n (f x)
   = length (filter (fun g => f g = true) l) + Nat.b2n (f y))%nat.
Proof.
  induction l as [|g l IH]; intros i x y Hi; [discriminate|].
  destruct i as [|i]; simpl in Hi |- *.
  - inversion Hi; subst g. rewrite !filter_cons.
    destruct (f x), (f y); simpl; lia.
  - rewrite !filter_cons. specialize (IH i x y Hi).
    destruct (decide (f g = true)); simpl; lia.
Qed.

Lemma count_app {A} (f : A -> bool) (l : list A) (x : A) :
  length (filter (fun g => f g = true) (l ++ [x]))
  = (length (filter (fun g => f g = true) l) + Nat.b2n (f x))%nat.
Proof.
  rewrite filter_app, length_app, filter_cons, filter_nil.
  destruct (f x); simpl; lia.
Qed.

Lemma count_zero {A} (f : A -> bool) (l : list A) :
  Forall (fun g => f g = false) l ->
  length (filter (fun g => f g = true) l) = 0%nat.
Proof.
  induction 1 as [|g l Hg _ IH]; [reflexivity|].
  rewrite filter_cons. destruct (decide (f g = true)); [congruence|exact IH].
Qed.

Section AgentFacts.

Variable encodedSize : list span -> Z + error.
Variable payloadSizeLimit : Z.
Variable concurrentConnectionLimit : nat.

Local Abbreviation inv := (agent_inv concurrentConnectionLimit).
Local Abbreviation flush' := (agent_flush concurrentConnectionLimit).
Local Abbreviation add' :=
  (agent_add encodedSize payloadSizeLimit concurrentConnectionLimit).
Local Abbreviation step' :=
  (agent_step encodedSize payloadSizeLimit concurrentConnectionLimit).

(** The invariant does not look at the contents of the heap, at the
    statsd calls or at the rate tables. *)
Lemma inv_frame a a' :
  ag_payload a' = ag_payload a -> ag_climit a' = ag_climit a ->
  ag_wg a' = ag_wg a -> length (heap a') = length (heap a) ->
  goroutines a' = goroutines a -> sent a' = sent a ->
  inv a -> inv a'.
Proof.
  intros Hp Hc Hw Hh Hg Hs [I1 I2 I3 I4 I5 I6 I7].
  constructor; unfold delivering in *; rewrite ?Hp, ?Hc, ?Hw, ?Hh, ?Hg, ?Hs;
    assumption.
Qed.

Lemma inv_new e : inv (newAgentTraceWriter e).
Proof.
  constructor; simpl; try reflexivity; try lia; try constructor.
Qed.

(** A returning [flush] either does nothing or starts one goroutine on
    the current payload and installs a new, empty one. *)
Lemma agent_flush_cases a a' :
  flush' a = Some a' ->
  (Payload.itemCount (deref a) = 0 /\ a' = a) \/
  (Payload.itemCount (deref a) <> 0 /\
   (ag_climit a < concurrentConnectionLimit)%nat /\
   a' = mkAgent (length (heap a)) (S (ag_climit a)) (S (ag_wg a))
                (heap a ++ [Payload.newPayload])
                (goroutines a ++ [mkGoroutine (ag_payload a) Sending])
                (sent a) (rates a) (proc a)).
Proof.
  unfold agent_flush.
  destruct (Payload.itemCount (deref a) =? 0) eqn:Hc.
  - apply Z.eqb_eq in Hc. intros [= <-]. left. auto.
  - apply Z.eqb_neq in Hc.
    destruct (ag_climit a <? concurrentConnectionLimit)%nat eqn:Hl; [|discriminate].
    apply Nat.ltb_lt in Hl. intros [= <-]. right. auto.
Qed.

Lemma inv_flush a a' : inv a -> flush' a = Some a' -> inv a'.
Proof.
  intros Ha Hf. destruct (agent_flush_cases _ _ Hf) as [[_ ->]|(_ & Hl & ->)];
    [assumption|].
  destruct Ha as [I1 I2 I3 I4 I5 I6 I7].
  constructor; unfold delivering in *; cbn [ag_payload ag_climit ag_wg heap goroutines sent].
  - rewrite count_app. simpl. lia.
  - lia.
  - rewrite count_app. simpl. lia.
  - rewrite length_app. simpl. lia.
  - apply Forall_app. split.
    + eapply Forall_impl; [exact I5|]. simpl. intros; lia.
    + constructor; [simpl; lia|constructor].
  - rewrite fmap_app. apply NoDup_app. split; [assumption|]. split.
    + intros p Hp Hin. simpl in Hin. apply list_elem_of_singleton in Hin. subst p.
      apply list_elem_of_fmap in Hp as (g & Hg & Hin).
      rewrite Forall_forall in I5. apply I5 in Hin. lia.
    + simpl. apply NoDup_singleton.
  - eapply Forall_impl; [exact I7|]. simpl. intros; lia.
Qed.

Lemma agent_add_pushed trace a :
  add' trace a =
  if payloadSizeLimit <? Payload.size (deref (pushed encodedSize trace a)) then
    flush' (with_proc (statsd_call (Incr "datadog.tracer.flush_triggered"
                                         ["reason:size"%string]))
                      (pushed encodedSize trace a))
  else Some (pushed encodedSize trace a).
Proof.
  unfold agent_add, pushed.
  destruct (Payload.push encodedSize trace (deref a)) as [p [err|]]; reflexivity.
Qed.

Lemma pushed_frame trace a :
  ag_payload (pushed encodedSize trace a) = ag_payload a /\
  ag_climit (pushed encodedSize trace a) = ag_climit a /\
  ag_wg (pushed encodedSize trace a) = ag_wg a /\
  length (heap (pushed encodedSize trace a)) = length (heap a) /\
  goroutines (pushed encodedSize trace a) = goroutines a /\
  sent (pushed encodedSize trace a) = sent a /\
  (forall p, p <> ag_payload a -> heap (pushed encodedSize trace a) !! p = heap a !! p).
Proof.
  unfold pushed.
  destruct (Payload.push encodedSize trace (deref a)) as [p [err|]];
    cbn [with_proc ag_payload ag_climit ag_wg heap goroutines sent];
    rewrite length_insert; repeat split; intros;
    apply list_lookup_insert_ne; congruence.
Qed.

Lemma inv_pushed trace a : inv a -> inv (pushed encodedSize trace a).
Proof.
  destruct (pushed_frame trace a) as (H1 & H2 & H3 & H4 & H5 & H6 & _).
  apply inv_frame; assumption.
Qed.

Lemma inv_add trace a a' : inv a -> add' trace a = Some a' -> inv a'.
Proof.
  intros Ha. rewrite agent_add_pushed.
  destruct (payloadSizeLimit <? _).
  - apply inv_flush. eapply inv_frame; [..|apply (inv_pushed trace a Ha)];
      reflexivity.
  - intros [= <-]. apply inv_pushed. assumption.
Qed.

Lemma inv_goroutine a a' : inv a -> goroutine_step a a' -> inv a'.
Proof.
  intros [I1 I2 I3 I4 I5 I6 I7] Hstep.
  assert (Hin : forall i g, goroutines a !! i = Some g ->
                            (g_payload g < ag_payload a)%nat).
  { intros i g Hg. rewrite Forall_forall in I5. apply I5.
    eapply list_elem_of_lookup_2; eassumption. }
  assert (Hmap : forall i p ph ph',
             goroutines a !! i = Some (mkGoroutine p ph) ->
             g_payload <$> <[i := mkGoroutine p ph']> (goroutines a)
             = g_payload <$> goroutines a).
  { intros i p ph ph' Hg. rewrite list_fmap_insert. apply list_insert_id.
    rewrite list_lookup_fmap, Hg. reflexivity. }
  unfold delivering in *.
  destruct Hstep as [i p o a Hg|i p a Hg|i p a Hg|i p a Hg];
    pose proof (count_insert holdsSlot _ _ _ (mkGoroutine p Releasing) Hg) as C1;
    pose proof (count_insert holdsSlot _ _ _ (mkGoroutine p Finishing) Hg) as C2;
    pose proof (count_insert counted _ _ _ (mkGoroutine p Releasing) Hg) as C3;
    pose proof (count_insert counted _ _ _ (mkGoroutine p Finishing) Hg) as C4;
    pose proof (count_insert holdsSlot _ _ _ (mkGoroutine p Reporting) Hg) as C5;
    pose proof (count_insert counted _ _ _ (mkGoroutine p Reporting) Hg) as C6;
    pose proof (count_insert holdsSlot _ _ _ (mkGoroutine p Exited) Hg) as C7;
    pose proof (count_insert counted _ _ _ (mkGoroutine p Exited) Hg) as C8;
    pose proof (Hin _ _ Hg) as Hp; simpl in Hp;
    cbn [holdsSlot counted g_phase Nat.b2n] in *.
  - assert (Hd : ag_payload (deliver p o a) = ag_payload a /\
                 ag_climit (deliver p o a) = ag_climit a /\
                 ag_wg (deliver p o a) = ag_wg a /\
                 heap (deliver p o a) = heap a /\
                 goroutines (deliver p o a) = goroutines a /\
                 sent (deliver p o a) = sent a ++ [p]).
    { unfold deliver. destruct o as [err|rc [|]]; repeat split. }
    destruct Hd as (D1 & D2 & D3 & D4 & D5 & D6).
    constructor; unfold delivering, with_goroutine;
      cbn [ag_payload ag_climit ag_wg heap goroutines sent];
      rewrite ?D1, ?D2, ?D3, ?D4, ?D5, ?D6; try lia.
    + apply Forall_insert; [assumption|simpl; lia].
    + rewrite (Hmap _ _ _ _ Hg). assumption.
    + apply Forall_app. split; [assumption|]. constructor; [lia|constructor].
  - constructor; unfold delivering, with_goroutine, receive_climit, wg_Done;
      cbn [ag_payload ag_climit ag_wg heap goroutines sent]; try lia; try assumption.
    + apply Forall_insert; [assumption|simpl; lia].
    + rewrite (Hmap _ _ _ _ Hg). assumption.
  - constructor; unfold delivering, with_goroutine, receive_climit, wg_Done;
      cbn [ag_payload ag_climit ag_wg heap goroutines sent]; try lia; try assumption.
    + apply Forall_insert; [assumption|simpl; lia].
    + rewrite (Hmap _ _ _ _ Hg). assumption.
  - constructor; unfold delivering, with_goroutine, with_proc;
      cbn [ag_payload ag_climit ag_wg heap goroutines sent]; try lia; try assumption.
    + apply Forall_insert; [assumption|simpl; lia].
    + rewrite (Hmap _ _ _ _ Hg). assumption.
Qed.

Lemma inv_step a a' : inv a -> step' a a' -> inv a'.
Proof.
  intros Ha Hs. destruct Hs as [trace a0 a1 H|a0 a1 H|a0 a1 H|a0 a1 H].
  - eapply inv_add; eassumption.
  - eapply inv_flush; eassumption.
  - unfold agent_stop in H. destruct (ag_wg a0 =? 0)%nat; [|discriminate].
    injection H as <-. assumption.
  - eapply inv_goroutine; eassumption.
Qed.

Lemma inv_steps a a' : inv a -> rtc step' a a' -> inv a'.
Proof. intros Ha Hs. induction Hs; eauto using inv_step. Qed.

Lemma inv_reachable a :
  reachable encodedSize payloadSizeLimit concurrentConnectionLimit a -> inv a.
Proof. intros [e Hs]. eapply inv_steps; [apply inv_new|exact Hs]. Qed.

(** What [add] does to the payload it finds and to the drop counter:
    the push of the trace, and one [traces_dropped] when it fails. *)
Lemma agent_add_spec trace a a' :
  (ag_payload a < length (heap a))%nat ->
  add' trace a = Some a' ->
  heap a' !! ag_payload a
  = Some (fst (Payload.push encodedSize trace (deref a))) /\
  drops (proc a')
  = drops (proc a)
    ++ match snd (Payload.push encodedSize trace (deref a)) with
       | Some _ => [Incr "datadog.tracer.traces_dropped"
                         ["reason:encoding_error"%string]]
       | None => []
       end.
Proof.
  intros Hp. rewrite agent_add_pushed.
  assert (Hpushed :
    heap (pushed encodedSize trace a) !! ag_payload a
    = Some (fst (Payload.push encodedSize trace (deref a))) /\
    drops (proc (pushed encodedSize trace a))
    = drops (proc a)
      ++ match snd (Payload.push encodedSize trace (deref a)) with
         | Some _ => [Incr "datadog.tracer.traces_dropped"
                           ["reason:encoding_error"%string]]
         | None => []
         end /\
    ag_payload (pushed encodedSize trace a) = ag_payload a /\
    length (heap (pushed encodedSize trace a)) = length (heap a)).
  { unfold pushed.
    destruct (Payload.push encodedSize trace (deref a)) as [p [err|]];
      cbn [fst snd with_proc heap proc ag_payload];
      rewrite length_insert, list_lookup_insert_eq by lia;
      (split; [reflexivity|]); (split; [|split; reflexivity]).
    - unfold drops. simpl. rewrite filter_app. reflexivity.
    - rewrite app_nil_r. reflexivity. }
  destruct Hpushed as (Hheap & Hdrops & Hptr & Hlen).
  destruct (payloadSizeLimit <? _).
  - set (a1 := with_proc _ (pushed encodedSize trace a)).
    assert (Hd1 : drops (proc a1) = drops (proc (pushed encodedSize trace a))).
    { unfold drops. subst a1. simpl. rewrite filter_app. apply app_nil_r. }
    intros Hf. apply agent_flush_cases in Hf as [[_ ->]|(_ & _ & ->)].
    + split; [exact Hheap|]. rewrite Hd1. exact Hdrops.
    + cbn [heap proc]. split.
      * change (heap a1) with (heap (pushed encodedSize trace a)).
        rewrite lookup_app_l by lia. exact Hheap.
      * rewrite Hd1. exact Hdrops.
  - intros [= <-]. split; assumption.
Qed.

(** ** Detached payloads are left alone

    A step moves [h.payload] forward only, and changes neither the
    payloads older than it nor the number of goroutines that hold
    them ([frame]). *)
Lemma frame_refl a : frame a a.
Proof. split; [lia|]. intros; split; reflexivity. Qed.

Lemma frame_trans a b c : frame a b -> frame b c -> frame a c.
Proof.
  intros [H1 H2] [H3 H4]. split; [lia|]. intros p Hp.
  destruct (H2 p Hp) as [<- <-]. apply H4. lia.
Qed.

Lemma frame_flush a a' : inv a -> flush' a = Some a' -> frame a a'.
Proof.
  intros Ha Hf. destruct (agent_flush_cases _ _ Hf) as [[_ ->]|(_ & _ & ->)];
    [apply frame_refl|].
  pose proof (inv_payload _ _ Ha) as Hp. split; simpl; [lia|].
  intros p Hlt. split.
  - apply lookup_app_l. lia.
  - unfold holders. simpl. rewrite count_app. simpl.
    replace (ag_payload a =? p)%nat with false; [simpl; lia|].
    symmetry. apply Nat.eqb_neq. lia.
Qed.

Lemma frame_add trace a a' : inv a -> add' trace a = Some a' -> frame a a'.
Proof.
  intros Ha. rewrite agent_add_pushed.
  destruct (pushed_frame trace a) as (H1 & H2 & H3 & H4 & H5 & H6 & H7).
  assert (Hpush : frame a (pushed encodedSize trace a)).
  { split; [lia|]. intros p Hp. split; [apply H7; lia|].
    unfold holders. rewrite H5. reflexivity. }
  destruct (payloadSizeLimit <? _).
  - intros Hf. eapply frame_trans; [exact Hpush|].
    eapply frame_trans; [|eapply frame_flush; [|exact Hf]].
    + split; [simpl; lia|]. intros; split; reflexivity.
    + eapply inv_frame; [..|apply (inv_pushed trace a Ha)]; reflexivity.
  - intros [= <-]. exact Hpush.
Qed.

Lemma frame_goroutine a a' : goroutine_step a a' -> frame a a'.
Proof.
  intros Hstep.
  assert (Hd : forall p o, ag_payload (deliver p o a) = ag_payload a /\
                           heap (deliver p o a) = heap a /\
                           goroutines (deliver p o a) = goroutines a).
  { intros p o. unfold deliver. destruct o as [err|rc [|]]; repeat split. }
  destruct Hstep as [i p o a Hg|i p a Hg|i p a Hg|i p a Hg];
    (split; [simpl; try rewrite (proj1 (Hd p o)); lia|]);
    intros q Hq; unfold holders, with_goroutine, with_proc, receive_climit, wg_Done;
    cbn [heap goroutines];
    try (destruct (Hd p o) as (_ & -> & ->));
    (split; [reflexivity|]).
  - pose proof (count_insert (fun g => (g_payload g =? q)%nat) _ _ _
                  (mkGoroutine p Releasing) Hg) as C. simpl in C. lia.
  - pose proof (count_insert (fun g => (g_payload g =? q)%nat) _ _ _
                  (mkGoroutine p Finishing) Hg) as C. simpl in C. lia.
  - pose proof (count_insert (fun g => (g_payload g =? q)%nat) _ _ _
                  (mkGoroutine p Reporting) Hg) as C. simpl in C. lia.
  - pose proof (count_insert (fun g => (g_payload g =? q)%nat) _ _ _
                  (mkGoroutine p Exited) Hg) as C. simpl in C. lia.
Qed.

Lemma frame_step a a' : inv a -> step' a a' -> frame a a'.
Proof.
  intros Ha Hs. destruct Hs as [trace a0 a1 H|a0 a1 H|a0 a1 H|a0 a1 H].
  - eapply frame_add; eassumption.
  - eapply frame_flush; eassumption.
  - unfold agent_stop in H. destruct (ag_wg a0 =? 0)%nat; [|discriminate].
    injection H as <-. apply frame_refl.
  - apply frame_goroutine. assumption.
Qed.

Lemma frame_steps a a' : inv a -> rtc step' a a' -> frame a a'.
Proof.
  intros Ha Hs. induction Hs as [a|a b c Hab Hbc IH]; [apply frame_refl|].
  eapply frame_trans; [eapply frame_step; eassumption|].
  apply IH. eapply inv_step; eassumption.
Qed.

(** Goroutines alone leave the writer's fields and the heap alone, and
    start no goroutine. *)
Lemma goroutine_steps_frame a a' :
  rtc goroutine_step a a' ->
  ag_payload a' = ag_payload a /\ heap a' = heap a /\
  length (goroutines a') = length (goroutines a).
Proof.
  induction 1 as [a|a b c Hab _ IH]; [auto|].
  destruct IH as (-> & -> & ->).
  assert (Hd : forall p o, ag_payload (deliver p o a) = ag_payload a /\
                           heap (deliver p o a) = heap a /\
                           goroutines (deliver p o a) = goroutines a).
  { intros p o. unfold deliver. destruct o as [err|rc [|]]; repeat split. }
  destruct Hab as [i p o a Hg|i p a Hg|i p a Hg|i p a Hg];
    unfold with_goroutine, with_proc, receive_climit, wg_Done;
    cbn [ag_payload heap goroutines]; rewrite ?length_insert; try (destruct (Hd p o) as (-> & -> & ->)); auto.
Qed.

Lemma goroutine_steps_steps a a' : rtc goroutine_step a a' -> rtc step' a a'.
Proof.
  induction 1 as [a|a b c Hab _ IH]; [constructor|].
  econstructor; [apply step_goroutine; exact Hab|exact IH].
Qed.

Lemma count_zero_inv {A} (f : A -> bool) (l : list A) :
  length (filter (fun g => f g = true) l) = 0%nat ->
  Forall (fun g => f g = false) l.
Proof.
  induction l as [|g l IH]; [constructor|].
  rewrite filter_cons. destruct (decide (f g = true)) as [Hg|Hg]; simpl.
  - discriminate.
  - intros H. constructor; [destruct (f g); congruence|auto].
Qed.

End AgentFacts.

(** * The claims about lambdaTraceWriter *)

(** C1 (refuted on the code).  [addTrace] keeps the buffer within
    [payloadLimit - 2] after each span, but the payload written by
    [flush] also holds the bracket that closes the trace array and the
    two bytes that close the batch.  A new writer given one trace of one
    span whose JSON text is 262129 bytes long and then flushed writes
    one payload of [payloadLimit + 1] bytes; given a second trace that
    does not fit before the flush, it writes [payloadLimit + 5] bytes. *)
Theorem C1_flushed_payload_exceeds_limit :
  map Buffer.Len (stdout (snd (flush (after_add [fillingSpan] lambda0))))
  = [payloadLimit + 1] /\
  map Buffer.Len
      (stdout (snd (after_add [span1k] (after_add [fillingSpan] lambda0))))
  = [payloadLimit + 5] /\
  statsd (snd (after_add [span1k] (after_add [fillingSpan] lambda0))) = [].
Proof.
  rewrite after_add_filling_1k, after_add_filling, flush_appendEntry.
  cbn [snd stdout statsd os_Stdout_Write process0 app map].
  split; [|split; [|reflexivity]].
  - apply (f_equal (fun x => [x])). len.
  - apply (f_equal (fun x => [x])). len.
Qed.

Section LambdaClaims.

Variable jsonMarshal : jsonSpan -> bytes + error.

(** C2.  On a writer whose buffer is in its reset state, [add] of a
    trace whose first span has a JSON text longer than [payloadLimit]
    drops the trace: one [traces_dropped] count of 1 with reason
    [trace_too_large], the cause logged, nothing written to standard
    output, and the writer (buffer and [hasTraces]) as it was. *)
Theorem C2_first_span_too_large_is_dropped s rest t e :
  encodes jsonMarshal s t ->
  payloadLimit < Buffer.Len t ->
  add jsonMarshal (s :: rest) (newLambdaTraceWriter, e)
  = Some (newLambdaTraceWriter,
          mkProcess (stdout e)
                    (statsd e ++ [Count "datadog.tracer.traces_dropped" 1
                                        ["reason:trace_too_large"%string]])
                    (errors e ++ ["span too large for payload"%string])).
Proof.
  intros Henc Hbig. unfold add. cbn [length].
  apply add_loop_drops with (t := t); [reflexivity|exact Henc|].
  change (Buffer.Len (payload newLambdaTraceWriter)) with 12.
  unfold payloadLimit in *. lia.
Qed.

(** C3.  When [add] accepts a trace (it drops nothing) and splits it
    (it flushes on the way), the spans end up in two or more trace
    arrays; the span texts of these arrays, taken in order, are the
    JSON texts of the spans of the trace in order; each array is written
    exactly as an array of an unsplit trace would be, every array but
    the last in a payload of its own and the last in the buffer; and no
    array is empty, but possibly the first when the batch already held
    traces. *)
Theorem C3_split_preserves_spans trace st st' :
  add jsonMarshal trace st = Some st' ->
  statsd (snd st') = statsd (snd st) ->
  stdout (snd st') <> stdout (snd st) ->
  exists entries ws,
    Forall2 (encodes jsonMarshal) trace (concat entries) /\
    (2 <= length entries)%nat /\
    entriesWellFormed (fst st) entries /\
    writeEntries entries (fst st) = (ws, fst st') /\
    stdout (snd st') = stdout (snd st) ++ ws /\
    length ws = pred (length entries).
Proof.
  intros Hrun Hkept Hsplit.
  destruct (add_loop_outcome jsonMarshal _ _ _ _ Hrun)
    as [(entries & Hall & Hwf & _ & ws & Hws & He')
       |(entries & err & _ & _ & _ & ws & _ & He')].
  - exists entries, ws.
    assert (Hlen : length ws = pred (length entries)).
    { pose proof (writeEntries_length entries (fst st)) as H.
      rewrite Hws in H. exact H. }
    assert (Hout : stdout (snd st') = stdout (snd st) ++ ws).
    { rewrite He'. reflexivity. }
    repeat (split; [assumption|]). split; [|split; [|split; [|split]]];
      try assumption.
    destruct ws as [|w ws]; [rewrite app_nil_r in Hout; contradiction|].
    simpl in Hlen. lia.
  - exfalso. rewrite He' in Hkept. simpl in Hkept.
    apply (f_equal length) in Hkept. rewrite length_app in Hkept.
    simpl in Hkept. lia.
Qed.

(** C8.  [add] terminates on every trace and in every state: the loop
    ends within one iteration per span and one more, whatever fuel
    beyond that it is given, and it ends either with every span written
    or with the rest of the trace dropped and counted once. *)
Theorem C8_add_terminates trace st :
  exists st',
    add jsonMarshal trace st = Some st' /\
    (forall fuel, (length trace < fuel)%nat ->
                  add_loop jsonMarshal fuel trace st = Some st') /\
    ((exists entries, wroteAll jsonMarshal trace st st' entries) \/
     (exists entries err, droppedRest jsonMarshal trace st st' entries err)).
Proof.
  destruct st as [h e].
  destruct (add_total jsonMarshal trace (h, e)) as [st' Hrun].
  exists st'. split; [exact Hrun|]. split.
  - intros fuel Hfuel. eapply add_loop_fuel_mono; [exact Hrun|lia].
  - eapply add_loop_outcome. exact Hrun.
Qed.

(** C9.  [add] of a trace without spans changes nothing: its loop is
    not entered, whatever the fuel, and the buffer, [hasTraces], the
    statsd calls, the log and standard output are as before, so that
    no flush took place. *)
Theorem C9_add_empty_trace_is_noop h e :
  add jsonMarshal [] (h, e) = Some (h, e) /\
  forall fuel, add_loop jsonMarshal fuel [] (h, e) = Some (h, e).
Proof.
  split; [reflexivity|]. intros fuel. destruct fuel; reflexivity.
Qed.

End LambdaClaims.

(** A span too large for any payload, alone in its trace, on a new
    writer. *)
Lemma C2_witness :
  add Json.Marshal [hugeSpan] lambda0
  = Some (newLambdaTraceWriter,
          mkProcess [] [Count "datadog.tracer.traces_dropped" 1
                              ["reason:trace_too_large"%string]]
                    ["span too large for payload"%string]).
Proof.
  apply (C2_first_span_too_large_is_dropped Json.Marshal hugeSpan []
           (jsonText hugeSpan) process0).
  - apply encodes_sizedSpan.
  - rewrite Len_hugeSpan. reflexivity.
Defined.

(** Two spans of 200 KiB in one trace, on a new writer: the first is
    flushed in a payload of its own and the second stays in the buffer. *)
Lemma C3_witness :
  exists entries ws,
    Forall2 (encodes Json.Marshal) [span200a; span200b] (concat entries) /\
    (2 <= length entries)%nat /\
    entriesWellFormed (fst lambda0) entries /\
    writeEntries entries (fst lambda0)
    = (ws, fst (after_add [span200a; span200b] lambda0)) /\
    stdout (snd (after_add [span200a; span200b] lambda0))
    = stdout (snd lambda0) ++ ws /\
    length ws = pred (length entries).
Proof.
  apply (C3_split_preserves_spans Json.Marshal [span200a; span200b] lambda0).
  - apply add_after_add.
  - rewrite after_add_200a_200b. reflexivity.
  - rewrite after_add_200a_200b. discriminate.
Defined.

(** * The claims about both writers *)

(** C6.  [flush] on a writer that holds no trace returns at once: the
    state of the writer and of the process around it (standard output,
    statsd calls, log, payloads sent, goroutines) is the one before the
    call.  For [lambdaTraceWriter] holding no trace is [hasTraces]
    being false, for [agentTraceWriter] it is [itemCount() == 0]. *)
Theorem C6_flush_empty_is_noop (h : lambdaTraceWriter) (e : process)
    (concurrentConnectionLimit : nat) (a : agent) :
  hasTraces h = false ->
  Payload.itemCount (deref a) = 0 ->
  flush (h, e) = (h, e) /\
  agent_flush concurrentConnectionLimit a = Some a.
Proof.
  intros Hh Ha. split.
  - unfold flush. rewrite Hh. reflexivity.
  - unfold agent_flush. rewrite Ha. reflexivity.
Qed.

Lemma C6_witness :
  flush lambda0 = lambda0 /\ agent_flush 1 agent0 = Some agent0.
Proof.
  apply (C6_flush_empty_is_noop newLambdaTraceWriter process0 1 agent0);
    reflexivity.
Defined.

(** C4, as the spec words it, fails on [lambdaTraceWriter]: a trace
    that does not fit into the batch is split, the batch flushed, and
    the buffer that [add] leaves is shorter than the one it found
    although nothing was dropped; and a trace that is split and whose
    later span is then dropped leaves the buffer reset, not as it
    was.  (Each state below is the state [add] returns, by
    [add_after_add].) *)
Lemma C4_counterexample :
  ~ acceptedOrDropped Json.Marshal [span100]
      (after_add [span200a] lambda0)
      (after_add [span100] (after_add [span200a] lambda0)) /\
  ~ acceptedOrDropped Json.Marshal [span1k; hugeSpan]
      (after_add [span200a] lambda0)
      (after_add [span1k; hugeSpan] (after_add [span200a] lambda0)).
Proof.
  rewrite after_add_200a_100, after_add_200a_1k_huge, after_add_200a.
  cbn [fst snd]. split.
  - intros [[[(texts & _ & Hlen) _]|[_ (c & _ & Hc)]] _].
    + pose proof (Len_nonneg
                    (traceEntry (appendEntry [jsonText span200a] newLambdaTraceWriter)
                                texts)) as Hpos.
      revert Hlen Hpos. len.
    + discriminate Hc.
  - intros [_ Hsame].
    assert (Heq : newLambdaTraceWriter
                  = appendEntry [jsonText span200a] newLambdaTraceWriter).
    { apply Hsame.
      exists (Count "datadog.tracer.traces_dropped" 1
                    ["reason:trace_too_large"%string]).
      split; reflexivity. }
    apply (f_equal hasTraces) in Heq. discriminate Heq.
Qed.

Section AcceptOutcome.

Variable jsonMarshal : jsonSpan -> bytes + error.
Variable encodedSize : list span -> Z + error.
Variable payloadSizeLimit : Z.
Variable concurrentConnectionLimit : nat.

(** C4, amended.  On [lambdaTraceWriter], [add] either drops nothing
    and has written every span of the trace, in order, as one or more
    trace arrays with a flush between two of them, or it counts exactly
    one drop, with reason [encoding_failed] or [trace_too_large], after
    having written and flushed the spans before the one it failed on.
    When it neither flushes nor drops, the buffer has grown by exactly
    the trace array of the trace.  After a drop the writer is as it was
    if nothing was flushed, and in its reset state otherwise.  A failed
    [addTrace] always leaves the writer as it found it.  On
    [agentTraceWriter], [add] either pushes the trace, so that the
    payload it found grows by the encoded size and by one trace and no
    drop is counted, or the push fails, the payload is as it was, and
    exactly one drop is counted with reason [encoding_error]. *)
Theorem C4_accept_outcome trace st st' a a' :
  add jsonMarshal trace st = Some st' ->
  (ag_payload a < length (heap a))%nat ->
  agent_add encodedSize payloadSizeLimit concurrentConnectionLimit trace a
  = Some a' ->
  (((exists entries, wroteAll jsonMarshal trace st st' entries) /\
    drops (snd st') = drops (snd st)) \/
   ((exists entries err, droppedRest jsonMarshal trace st st' entries err) /\
    exists reason,
      (reason = "reason:encoding_failed"%string \/
       reason = "reason:trace_too_large"%string) /\
      drops (snd st')
      = drops (snd st) ++ [Count "datadog.tracer.traces_dropped" 1 [reason]])) /\
  (stdout (snd st') = stdout (snd st) -> drops (snd st') = drops (snd st) ->
   trace <> [] ->
   exists texts, Forall2 (encodes jsonMarshal) trace texts /\
                 fst st' = appendEntry texts (fst st)) /\
  (drops (snd st') <> drops (snd st) ->
   (stdout (snd st') = stdout (snd st) /\ fst st' = fst st) \/
   (stdout (snd st') <> stdout (snd st) /\ fst st' = newLambdaTraceWriter)) /\
  (forall tr h h' w err,
      addTrace jsonMarshal tr h = (h', (w, Some err)) -> h' = h) /\
  exists p',
    heap a' !! ag_payload a = Some p' /\
    ((exists n, encodedSize trace = inl n /\
                Payload.size p' = Payload.size (deref a) + n /\
                Payload.itemCount p' = Payload.itemCount (deref a) + 1 /\
                drops (proc a') = drops (proc a)) \/
     (exists err, encodedSize trace = inr err /\
                  p' = deref a /\
                  drops (proc a')
                  = drops (proc a)
                    ++ [Incr "datadog.tracer.traces_dropped"
                             ["reason:encoding_error"%string]])).
Proof.
  intros Hadd Hptr Hagent.
  assert (Hlonger : forall (l : list statsdCall) c, l ++ [c] <> l).
  { intros l c H. apply (f_equal length) in H. rewrite length_app in H.
    simpl in H. lia. }
  assert (Hlonger' : forall (l : list bytes) w ws, l ++ w :: ws <> l).
  { intros l w ws H. apply (f_equal length) in H. rewrite length_app in H.
    simpl in H. lia. }
  pose proof (add_loop_outcome jsonMarshal _ _ _ _ Hadd) as Hout.
  assert (Hw : forall entries, wroteAll jsonMarshal trace st st' entries ->
                               drops (snd st') = drops (snd st)).
  { intros entries (_ & _ & _ & ws & _ & ->). reflexivity. }
  assert (Hd : forall entries err, droppedRest jsonMarshal trace st st' entries err ->
             drops (snd st') = drops (snd st) ++ [droppedCall err]).
  { intros entries err (_ & _ & _ & ws & _ & ->). unfold drops. simpl.
    rewrite filter_app. reflexivity. }
  split; [|split; [|split; [|split]]].
  - destruct Hout as [[entries Hwr]|(entries & err & Hdr)].
    + left. split; [exists entries; exact Hwr|]. eapply Hw; exact Hwr.
    + right. split; [exists entries, err; exact Hdr|].
      exists (String.append "reason:" (dropReason err)). split.
      * destruct Hdr as (_ & _ & [-> | ->] & _); [left|right]; reflexivity.
      * apply (Hd _ _ Hdr).
  - intros Hsame Hkept Hne.
    destruct Hout as [(entries & Hall & _ & Hnil & ws & Hws & He')
                     |(entries & err & Hdr)].
    + pose proof (writeEntries_length entries (fst st)) as Hlen.
      rewrite Hws in Hlen. simpl in Hlen.
      rewrite He' in Hsame. simpl in Hsame.
      destruct ws as [|w ws]; [|exfalso; eapply Hlonger'; exact Hsame].
      destruct entries as [|texts [|c rest]]; [|clear Hlen|discriminate Hlen].
      * exfalso. apply Hne. apply Hnil. reflexivity.
      * exists texts. simpl in Hall. rewrite app_nil_r in Hall.
        split; [exact Hall|]. simpl in Hws. congruence.
    + exfalso. rewrite (Hd _ _ Hdr) in Hkept. eapply Hlonger; exact Hkept.
  - intros Hcounted.
    destruct Hout as [[entries Hwr]|(entries & err & _ & _ & _ & ws & Hws & He')].
    + exfalso. apply Hcounted. eapply Hw; exact Hwr.
    + rewrite He'. simpl.
      destruct (flushEntries_cases entries (fst st))
        as [[_ Hnil]|(w & ws' & Hcons)].
      * left. rewrite Hnil in Hws. inversion Hws; subst.
        split; [apply app_nil_r|reflexivity].
      * right. rewrite Hcons in Hws. inversion Hws; subst.
        split; [apply Hlonger'|reflexivity].
  - intros tr h h' w err Hat.
    pose proof (addTrace_spec jsonMarshal _ _ _ _ _ Hat) as Hspec.
    simpl in Hspec. apply Hspec.
  - destruct (agent_add_spec _ _ _ _ _ _ Hptr Hagent) as [Hheap Hdrops].
    exists (fst (Payload.push encodedSize trace (deref a))).
    split; [exact Hheap|]. unfold Payload.push in *.
    destruct (encodedSize trace) as [n|err]; simpl in *.
    + left. exists n. split; [reflexivity|]. split; [reflexivity|].
      split.
      * unfold Payload.itemCount. simpl. rewrite length_app. simpl. lia.
      * rewrite Hdrops. apply app_nil_r.
    + right. exists err. auto.
Qed.

End AcceptOutcome.

(** A trace of one span of 1 KiB on a new [lambdaTraceWriter] and the
    same trace on a new [agentTraceWriter]. *)
Lemma C4_witness :
  exists p',
    heap agent1 !! ag_payload agent0 = Some p' /\
    ((exists n, encodedSize0 [span1k] = inl n /\
                Payload.size p' = Payload.size (deref agent0) + n /\
                Payload.itemCount p' = Payload.itemCount (deref agent0) + 1 /\
                drops (proc agent1) = drops (proc agent0)) \/
     (exists err, encodedSize0 [span1k] = inr err /\
                  p' = deref agent0 /\
                  drops (proc agent1)
                  = drops (proc agent0)
                    ++ [Incr "datadog.tracer.traces_dropped"
                             ["reason:encoding_error"%string]])).
Proof.
  refine (proj2 (proj2 (proj2 (proj2
    (C4_accept_outcome Json.Marshal encodedSize0 1000 1 [span1k]
       lambda0 (after_add [span1k] lambda0) agent0 agent1 _ _ _))))).
  - apply add_after_add.
  - simpl. lia.
  - reflexivity.
Defined.

(** * The claims about agentTraceWriter *)

Section AgentClaims.

Variable encodedSize : list span -> Z + error.
Variable payloadSizeLimit : Z.
Variable concurrentConnectionLimit : nat.

Local Abbreviation reachable' :=
  (reachable encodedSize payloadSizeLimit concurrentConnectionLimit).
Local Abbreviation steps' :=
  (rtc (agent_step encodedSize payloadSizeLimit concurrentConnectionLimit)).

(** C5.  A [flush] that finds traces in the payload and returns has
    started exactly one goroutine on that payload, and no goroutine
    held it before; [h.payload] now points to a payload allocated by
    this call, which is empty; and whatever the caller and the
    goroutines do from then on, [h.payload] never points to the
    detached payload again, the detached payload keeps the content it
    had, and it stays with that one goroutine. *)
Theorem C5_flush_detaches_payload a a' :
  reachable' a ->
  Payload.itemCount (deref a) <> 0 ->
  agent_flush concurrentConnectionLimit a = Some a' ->
  goroutines a' = goroutines a ++ [mkGoroutine (ag_payload a) Sending] /\
  holders a (ag_payload a) = 0%nat /\
  ag_payload a' = length (heap a) /\
  heap a' = heap a ++ [Payload.newPayload] /\
  deref a' = Payload.newPayload /\
  forall a'', steps' a' a'' ->
    ag_payload a'' <> ag_payload a /\
    heap a'' !! ag_payload a = heap a !! ag_payload a /\
    holders a'' (ag_payload a) = 1%nat.
Proof.
  intros Hreach Hcount Hflush.
  pose proof (inv_reachable _ _ _ _ Hreach) as Ha.
  pose proof (inv_flush _ _ _ Ha Hflush) as Ha'.
  destruct (agent_flush_cases _ _ _ Hflush) as [[Hz _]|(_ & _ & ->)];
    [contradiction|].
  pose proof (inv_payload _ _ Ha) as Hp.
  assert (Hnone : holders a (ag_payload a) = 0%nat).
  { unfold holders. apply count_zero.
    eapply Forall_impl; [apply (inv_detached _ _ Ha)|].
    simpl. intros g Hg. apply Nat.eqb_neq. lia. }
  split; [reflexivity|]. split; [exact Hnone|]. split; [reflexivity|].
  split; [reflexivity|]. split.
  { unfold deref. simpl. rewrite lookup_app_r by lia.
    rewrite Nat.sub_diag. reflexivity. }
  intros a'' Hsteps.
  destruct (frame_steps _ _ _ _ _ Ha' Hsteps) as [Hle Hold].
  simpl in Hle. specialize (Hold (ag_payload a)). simpl in Hold.
  destruct (Hold Hp) as [Hheap Hholders]. split; [lia|]. split.
  - rewrite Hheap. apply lookup_app_l. lia.
  - rewrite Hholders. unfold holders in *. simpl. rewrite count_app.
    rewrite Hnone. simpl. rewrite Nat.eqb_refl. reflexivity.
Qed.

(** C7.  In every state the program reaches, at most
    [concurrentConnectionLimit] goroutines are delivering, that is
    between their start and their receive from [h.climit], the stretch
    in which the payload is sent and the result recorded.  When that
    many are, a [flush] that has traces to send blocks; when fewer are,
    it returns.  (A goroutine that has given its slot back still calls
    [h.wg.Done()] and [Timing]; it is not counted.) *)
Theorem C7_deliveries_bounded a :
  reachable' a ->
  (delivering a <= concurrentConnectionLimit)%nat /\
  (delivering a = concurrentConnectionLimit ->
   Payload.itemCount (deref a) <> 0 ->
   agent_flush concurrentConnectionLimit a = None) /\
  ((delivering a < concurrentConnectionLimit)%nat ->
   exists a', agent_flush concurrentConnectionLimit a = Some a').
Proof.
  intros Hreach. pose proof (inv_reachable _ _ _ _ Hreach) as Ha.
  pose proof (inv_climit _ _ Ha) as Hc. pose proof (inv_limit _ _ Ha) as Hl.
  split; [lia|]. split.
  - intros Hfull Hcount. unfold agent_flush.
    destruct (Payload.itemCount (deref a) =? 0) eqn:Hz;
      [apply Z.eqb_eq in Hz; contradiction|].
    replace (ag_climit a <? concurrentConnectionLimit)%nat with false;
      [reflexivity|]. symmetry. apply Nat.ltb_ge. lia.
  - intros Hfree. unfold agent_flush.
    destruct (Payload.itemCount (deref a) =? 0); [eexists; reflexivity|].
    replace (ag_climit a <? concurrentConnectionLimit)%nat with true;
      [eexists; reflexivity|]. symmetry. apply Nat.ltb_lt. lia.
Qed.

(** C10.  [stop] only waits: while it waits the goroutines alone run,
    and when it returns the state is the one its wait ended in.
    [h.payload] and every payload, the current one with the traces
    added since the last flush included, are as they were when [stop]
    was called; no goroutine was started; the current payload was never
    passed to [transport.send]; and every goroutine started before has
    called [h.wg.Done()]. *)
Theorem C10_stop_does_not_flush a a1 a2 :
  reachable' a ->
  rtc goroutine_step a a1 ->
  agent_stop a1 = Some a2 ->
  a2 = a1 /\
  ag_payload a2 = ag_payload a /\
  heap a2 = heap a /\
  deref a2 = deref a /\
  length (goroutines a2) = length (goroutines a) /\
  ~ ag_payload a ∈ sent a2 /\
  Forall (fun g => counted g = false) (goroutines a2).
Proof.
  intros Hreach Hwait Hstop.
  pose proof (inv_reachable _ _ _ _ Hreach) as Ha.
  pose proof (inv_steps _ _ _ _ _ Ha
                (goroutine_steps_steps encodedSize payloadSizeLimit
                   concurrentConnectionLimit _ _ Hwait)) as Ha1.
  destruct (goroutine_steps_frame _ _ Hwait) as (Hp & Hh & Hg).
  unfold agent_stop in Hstop.
  destruct (ag_wg a1 =? 0)%nat eqn:Hwg; [|discriminate].
  injection Hstop as <-. apply Nat.eqb_eq in Hwg.
  split; [reflexivity|]. split; [assumption|]. split; [assumption|].
  split; [unfold deref; rewrite Hp, Hh; reflexivity|].
  split; [assumption|]. split.
  - intros Hin. pose proof (inv_sent _ _ Ha1) as Hs.
    rewrite Forall_forall in Hs. apply Hs in Hin. lia.
  - apply count_zero_inv. rewrite <- (inv_wg _ _ Ha1). exact Hwg.
Qed.

End AgentClaims.

Lemma reachable_agent1 : reachable encodedSize0 1000 1 agent1.
Proof.
  exists process0. eapply rtc_l; [|apply rtc_refl].
  apply step_add with (trace := [span1k]). reflexivity.
Qed.

Lemma reachable_agent2 : reachable encodedSize0 1000 1 agent2.
Proof.
  destruct reachable_agent1 as [e H]. exists e.
  eapply rtc_r; [exact H|]. apply step_flush. reflexivity.
Qed.

(** One trace added to a new writer, then a flush. *)
Lemma C5_witness :
  goroutines agent2 = goroutines agent1 ++ [mkGoroutine (ag_payload agent1) Sending] /\
  holders agent1 (ag_payload agent1) = 0%nat /\
  ag_payload agent2 = length (heap agent1) /\
  heap agent2 = heap agent1 ++ [Payload.newPayload] /\
  deref agent2 = Payload.newPayload /\
  forall a'', rtc (agent_step encodedSize0 1000 1) agent2 a'' ->
    ag_payload a'' <> ag_payload agent1 /\
    heap a'' !! ag_payload agent1 = heap agent1 !! ag_payload agent1 /\
    holders a'' (ag_payload agent1) = 1%nat.
Proof.
  apply (C5_flush_detaches_payload encodedSize0 1000 1 agent1 agent2).
  - exact reachable_agent1.
  - vm_compute. discriminate.
  - reflexivity.
Defined.

(** With room for one connection and one goroutine delivering, a
    second flush has to wait. *)
Lemma C7_witness :
  (delivering agent2 <= 1)%nat /\
  (delivering agent2 = 1%nat ->
   Payload.itemCount (deref agent2) <> 0 -> agent_flush 1 agent2 = None) /\
  ((delivering agent2 < 1)%nat -> exists a', agent_flush 1 agent2 = Some a').
Proof. apply (C7_deliveries_bounded encodedSize0 1000 1 agent2 reachable_agent2). Defined.

Lemma reachable_agent3 : reachable encodedSize0 1000 1 agent3.
Proof.
  destruct reachable_agent2 as [e H]. exists e.
  eapply rtc_r; [exact H|].
  apply step_add with (trace := [span1k; span100]). reflexivity.
Qed.

(** [stop] is called while one payload is being sent and a trace of two
    spans waits in the next payload: the goroutine finishes, [stop]
    returns, and the trace is still in the payload. *)
Lemma C10_witness :
  agent7 = agent7 /\
  ag_payload agent7 = ag_payload agent3 /\
  heap agent7 = heap agent3 /\
  deref agent7 = deref agent3 /\
  length (goroutines agent7) = length (goroutines agent3) /\
  ~ ag_payload agent3 ∈ sent agent7 /\
  Forall (fun g => counted g = false) (goroutines agent7).
Proof.
  apply (C10_stop_does_not_flush encodedSize0 1000 1 agent3 agent7 agent7).
  - exact reachable_agent3.
  - eapply rtc_l; [apply (step_send 0 0 (SendOK [] false) agent3); reflexivity|].
    eapply rtc_l; [apply (step_release 0 0 agent4); reflexivity|].
    eapply rtc_l; [apply (step_done 0 0 agent5); reflexivity|].
    eapply rtc_l; [apply (step_timing 0 0 agent6); reflexivity|].
    apply rtc_refl.
  - reflexivity.
Defined.

(** * Further properties of the code *)

(** ** [hexInt.MarshalJSON] *)

Lemma to_hex_uint_nonnil (i : N) : N.to_hex_uint i <> Hexadecimal.Nil.
Proof.
  rewrite <- (HexadecimalN.Unsigned.of_to i) at 1.
  rewrite HexadecimalN.Unsigned.to_of. apply HexadecimalFacts.unorm_nonnil.
Qed.

Lemma str_inj (s s' : string) : str s = str s' -> s = s'.
Proof.
  unfold str. intros H.
  rewrite <- (string_of_list_byte_of_string s),
          <- (string_of_list_byte_of_string s'), H.
  reflexivity.
Qed.

Lemma FormatUint16_inj (i j : N) : FormatUint16 i = FormatUint16 j -> i = j.
Proof.
  unfold FormatUint16. intros H. apply str_inj in H.
  apply HexadecimalN.Unsigned.to_uint_inj.
  apply (f_equal HexadecimalString.NilZero.uint_of_string) in H.
  rewrite !HexadecimalString.NilZero.usu in H by apply to_hex_uint_nonnil.
  congruence.
Qed.

Lemma string_of_uint_hex (d : Hexadecimal.uint) :
  Forall (fun b => isLowerHex b = true)
         (str (HexadecimalString.NilEmpty.string_of_uint d)).
Proof.
  induction d; cbn [HexadecimalString.NilEmpty.string_of_uint];
    try (constructor; [reflexivity|exact IHd]).
  constructor.
Qed.

Lemma FormatUint16_hex (i : N) :
  Forall (fun b => isLowerHex b = true) (FormatUint16 i) /\ FormatUint16 i <> [].
Proof.
  unfold FormatUint16, HexadecimalString.NilZero.string_of_uint.
  pose proof (to_hex_uint_nonnil i) as Hn.
  destruct (N.to_hex_uint i) eqn:E; try congruence;
    (split; [apply (string_of_uint_hex (_ u)) | discriminate]).
Qed.

(** X1.  [hexInt.MarshalJSON] gives different identifiers different
    texts: the text determines the identifier. *)
Theorem X1_hexInt_MarshalJSON_injective (i j : hexInt) :
  hexInt_MarshalJSON i = hexInt_MarshalJSON j -> i = j.
Proof.
  unfold hexInt_MarshalJSON. intros H.
  apply app_inv_head in H. apply app_inv_tail in H.
  apply FormatUint16_inj. exact H.
Qed.

Lemma X1_witness : (255%N : hexInt) = 255%N.
Proof.
  apply (X1_hexInt_MarshalJSON_injective 255%N 255%N). reflexivity.
Defined.

(** X2.  The text of [hexInt.MarshalJSON] is a JSON string that needs
    no escaping: a double quote, one or more digits among [0-9a-f], a
    double quote. *)
Theorem X2_hexInt_MarshalJSON_format (i : hexInt) :
  exists digits,
    hexInt_MarshalJSON i = [dquote] ++ digits ++ [dquote] /\
    digits <> [] /\
    Forall (fun b => isLowerHex b = true) digits.
Proof.
  exists (FormatUint16 i). split; [reflexivity|].
  destruct (FormatUint16_hex i) as [Hhex Hne]. split; assumption.
Qed.

(** ** The shape of the payloads of [lambdaTraceWriter] *)

Lemma joinArrays_snoc batch texts : forall first,
  joinArrays first (batch ++ [texts])
  = joinArrays first batch
      ++ (if first && match batch with [] => true | _ => false end
          then str "[" else str ", [")
      ++ joinSpans 0 texts ++ str "]".
Proof.
  induction batch as [|c batch IH]; intros first.
  - cbn [app joinArrays]. rewrite andb_true_r, app_nil_r. reflexivity.
  - cbn [app joinArrays]. rewrite IH. rewrite andb_false_r, andb_false_l.
    rewrite <- !app_assoc. reflexivity.
Qed.

Lemma holds_new : holds newLambdaTraceWriter [].
Proof.
  split; [|reflexivity].
  rewrite payload_new. unfold render. cbn [joinArrays].
  rewrite app_nil_r. reflexivity.
Qed.

Lemma holds_appendEntry h batch texts :
  holds h batch -> holds (appendEntry texts h) (batch ++ [texts]).
Proof.
  intros [Hp Ht]. split.
  - unfold appendEntry, traceEntry, traceOpen, render. cbn [payload].
    rewrite Hp, Ht, joinArrays_snoc. unfold render. cbn [andb].
    rewrite <- !app_assoc. destruct batch; reflexivity.
  - destruct batch; reflexivity.
Qed.

Lemma payloadsOf_nil : payloadsOf [] [].
Proof. split; [reflexivity|constructor]. Qed.

Lemma payloadsOf_cons w ws b batches :
  w = render b ++ closing -> b <> [] -> payloadsOf ws batches ->
  payloadsOf (w :: ws) (b :: batches).
Proof.
  intros -> Hb [-> Hall]. split; [reflexivity|constructor; assumption].
Qed.

Lemma payloadsOf_app ws ws' batches batches' :
  payloadsOf ws batches -> payloadsOf ws' batches' ->
  payloadsOf (ws ++ ws') (batches ++ batches').
Proof.
  intros [-> H] [-> H']. split; [rewrite map_app; reflexivity|].
  apply Forall_app. split; assumption.
Qed.

Lemma closed_holds h batch : holds h batch -> closed h = render batch ++ closing.
Proof. intros [Hp _]. unfold closed, closing. rewrite Hp. reflexivity. Qed.

(** The arrays of one trace go to the end of the batch; each flush in
    between closes a batch that is not empty and opens an empty one. *)
Lemma writeEntries_holds entries : forall h batch ws h',
  holds h batch ->
  writeEntries entries h = (ws, h') ->
  exists batches batch',
    payloadsOf ws batches /\ holds h' batch' /\
    concat batches ++ batch' = batch ++ entries.
Proof.
  induction entries as [|c entries IH]; intros h batch ws h' Hh Hrun.
  - inversion Hrun; subst. exists [], batch.
    split; [apply payloadsOf_nil|]. split; [exact Hh|].
    simpl. rewrite app_nil_r. reflexivity.
  - pose proof (holds_appendEntry h batch c Hh) as Hh1.
    destruct entries as [|c' entries].
    + inversion Hrun; subst. exists [], (batch ++ [c]).
      split; [apply payloadsOf_nil|]. split; [exact Hh1|reflexivity].
    + change (writeEntries (c :: c' :: entries) h)
        with (let '(ws, h') := writeEntries (c' :: entries)
                                 (resetPayload (appendEntry c h))
              in (closed (appendEntry c h) :: ws, h')) in Hrun.
      destruct (writeEntries (c' :: entries) (resetPayload (appendEntry c h)))
        as [ws1 h1] eqn:Hrest.
      inversion Hrun; subst ws h'. clear Hrun.
      rewrite resetPayload_new in Hrest.
      destruct (IH _ _ _ _ holds_new Hrest) as (batches & batch' & Hws & Hh' & Hcat).
      exists ((batch ++ [c]) :: batches), batch'.
      split; [|split; [exact Hh'|]].
      * apply payloadsOf_cons; [apply closed_holds; exact Hh1| |exact Hws].
        destruct batch; discriminate.
      * cbn [concat]. rewrite <- app_assoc, Hcat. rewrite <- app_assoc.
        reflexivity.
Qed.

Lemma flushEntries_holds entries : forall h batch ws h',
  holds h batch ->
  flushEntries entries h = (ws, h') ->
  exists batches batch',
    payloadsOf ws batches /\ holds h' batch' /\
    concat batches ++ batch' = batch ++ entries.
Proof.
  induction entries as [|c entries IH]; intros h batch ws h' Hh Hrun.
  - inversion Hrun; subst. exists [], batch.
    split; [apply payloadsOf_nil|]. split; [exact Hh|].
    simpl. rewrite app_nil_r. reflexivity.
  - pose proof (holds_appendEntry h batch c Hh) as Hh1.
    cbn [flushEntries] in Hrun.
    destruct (flushEntries entries (resetPayload (appendEntry c h)))
      as [ws1 h1] eqn:Hrest.
    inversion Hrun; subst ws h'. clear Hrun.
    rewrite resetPayload_new in Hrest.
    destruct (IH _ _ _ _ holds_new Hrest) as (batches & batch' & Hws & Hh' & Hcat).
    exists ((batch ++ [c]) :: batches), batch'.
    split; [|split; [exact Hh'|]].
    + apply payloadsOf_cons; [apply closed_holds; exact Hh1| |exact Hws].
      destruct batch; discriminate.
    + cbn [concat]. rewrite <- app_assoc, Hcat. rewrite <- app_assoc.
      reflexivity.
Qed.

Lemma flush_holds h e batch :
  holds h batch ->
  exists batches batch',
    stdout (snd (flush (h, e))) = stdout e ++ map (fun b => render b ++ closing) batches /\
    Forall (fun b => b <> []) batches /\
    holds (fst (flush (h, e))) batch' /\
    concat batches ++ batch' = batch /\
    statsd (snd (flush (h, e))) = statsd e.
Proof.
  intros Hh. destruct batch as [|c batch].
  - destruct Hh as [Hp Ht]. unfold flush. rewrite Ht. cbn [negb fst snd].
    exists [], []. cbn [map concat app]. rewrite app_nil_r.
    split; [reflexivity|]. split; [constructor|].
    split; [split; assumption|]. split; reflexivity.
  - pose proof Hh as [Hp Ht]. rewrite (flush_hasTraces h e Ht). cbn [fst snd].
    exists [c :: batch], []. cbn [map concat stdout os_Stdout_Write statsd].
    rewrite (closed_holds _ _ Hh), !app_nil_r.
    split; [reflexivity|]. split; [constructor; [discriminate|constructor]|].
    split; [apply holds_new|]. split; reflexivity.
Qed.

Section LambdaExtras.

Variable jsonMarshal : jsonSpan -> bytes + error.

Lemma add_holds trace h e h' e' batch :
  holds h batch ->
  add jsonMarshal trace (h, e) = Some (h', e') ->
  exists batches batch' arrays,
    stdout e' = stdout e ++ map (fun b => render b ++ closing) batches /\
    Forall (fun b => b <> []) batches /\
    holds h' batch' /\
    concat batches ++ batch' = batch ++ arrays /\
    ((statsd e' = statsd e /\
      Forall2 (encodes jsonMarshal) trace (concat arrays)) \/
     exists c, statsd e' = statsd e ++ [c]).
Proof.
  intros Hh Hadd.
  destruct (add_loop_outcome jsonMarshal _ _ _ _ Hadd)
    as [(entries & Hall & _ & _ & ws & Hws & He')
       |(entries & err & _ & _ & _ & ws & Hws & He')];
    cbn [fst snd] in *.
  - destruct (writeEntries_holds _ _ _ _ _ Hh Hws)
      as (batches & batch' & [-> Hne] & Hh' & Hcat).
    exists batches, batch', entries. rewrite He'. cbn [stdout statsd].
    repeat (split; [assumption || reflexivity|]). left. split; [reflexivity|assumption].
  - destruct (flushEntries_holds _ _ _ _ _ Hh Hws)
      as (batches & batch' & [-> Hne] & Hh' & Hcat).
    exists batches, batch', entries. rewrite He'. cbn [stdout statsd].
    repeat (split; [assumption || reflexivity|]). right. eexists. reflexivity.
Qed.

Lemma calls_holds cs : forall h e h' e' batch,
  holds h batch ->
  calls jsonMarshal cs (h, e) = Some (h', e') ->
  exists batches batch' arrays ds,
    stdout e' = stdout e ++ map (fun b => render b ++ closing) batches /\
    Forall (fun b => b <> []) batches /\
    holds h' batch' /\
    concat batches ++ batch' = batch ++ arrays /\
    statsd e' = statsd e ++ ds /\
    (ds = [] -> Forall2 (encodes jsonMarshal) (tracesOf cs) (concat arrays)).
Proof.
  induction cs as [|[trace|] cs IH]; intros h e h' e' batch Hh Hrun.
  - inversion Hrun; subst. exists [], batch, [], [].
    cbn [map concat app tracesOf flat_map]. rewrite !app_nil_r.
    repeat (split; [assumption || reflexivity || constructor|]).
    intros _. constructor.
  - cbn [calls] in Hrun.
    destruct (add jsonMarshal trace (h, e)) as [[h1 e1]|] eqn:Hadd;
      [|discriminate].
    destruct (add_holds _ _ _ _ _ _ Hh Hadd)
      as (b1 & batch1 & a1 & Hout1 & Hne1 & Hh1 & Hcat1 & Hst1).
    destruct (IH _ _ _ _ _ Hh1 Hrun)
      as (b2 & batch2 & a2 & ds2 & Hout2 & Hne2 & Hh2 & Hcat2 & Hst2 & Hall2).
    exists (b1 ++ b2), batch2, (a1 ++ a2).
    exists (drop (length (statsd e)) (statsd e1) ++ ds2).
    split; [rewrite Hout2, Hout1, map_app, app_assoc; reflexivity|].
    split; [apply Forall_app; split; assumption|].
    split; [exact Hh2|]. split.
    { rewrite concat_app, <- app_assoc, Hcat2, app_assoc, Hcat1, app_assoc.
      reflexivity. }
    destruct Hst1 as [[Hsame Hall1]|[c Hc]].
    + rewrite Hsame, drop_all. cbn [app].
      split; [rewrite Hst2, Hsame; reflexivity|].
      intros Hds. cbn [tracesOf flat_map]. rewrite concat_app.
      apply Forall2_app; [exact Hall1|apply Hall2; exact Hds].
    + split.
      * rewrite Hst2, Hc, drop_app_length, <- app_assoc. reflexivity.
      * rewrite Hc, drop_app_length. discriminate.
  - cbn [calls] in Hrun.
    destruct (flush_holds h e batch Hh)
      as (b1 & batch1 & Hout1 & Hne1 & Hh1 & Hcat1 & Hst1).
    destruct (flush (h, e)) as [h1 e1] eqn:Hf. cbn [fst snd] in *.
    destruct (IH _ _ _ _ _ Hh1 Hrun)
      as (b2 & batch2 & a2 & ds2 & Hout2 & Hne2 & Hh2 & Hcat2 & Hst2 & Hall2).
    exists (b1 ++ b2), batch2, a2, ds2.
    split; [rewrite Hout2, Hout1, map_app, app_assoc; reflexivity|].
    split; [apply Forall_app; split; assumption|].
    split; [exact Hh2|]. split.
    { rewrite concat_app, <- app_assoc, Hcat2, app_assoc, Hcat1. reflexivity. }
    split; [rewrite Hst2, Hst1; reflexivity|].
    intros Hds. cbn [tracesOf flat_map app]. apply Hall2. exact Hds.
Qed.

Lemma calls_total cs : forall st, exists st', calls jsonMarshal cs st = Some st'.
Proof.
  induction cs as [|[trace|] cs IH]; intros st; cbn [calls].
  - eexists. reflexivity.
  - destruct (add_total jsonMarshal trace st) as [st1 ->]. apply IH.
  - apply IH.
Qed.

(** X3.  Whatever is added to a new writer and whenever it is flushed,
    every payload written to standard output is the opening text, one
    or more trace arrays separated by a comma and a space, and the
    closing [\]}]; no payload is written for an empty batch; and the
    buffer left behind is the open payload of the arrays not yet
    flushed, [hasTraces] telling whether there is one. *)
Theorem X3_payloads_are_closed_batches cs e h' e' :
  calls jsonMarshal cs (newLambdaTraceWriter, e) = Some (h', e') ->
  exists batches batch',
    stdout e' = stdout e ++ map (fun b => render b ++ closing) batches /\
    Forall (fun b => b <> []) batches /\
    payload h' = render batch' /\
    (hasTraces h' = true <-> batch' <> []).
Proof.
  intros Hrun.
  destruct (calls_holds _ _ _ _ _ _ holds_new Hrun)
    as (batches & batch' & _ & _ & Hout & Hne & [Hp Ht] & _).
  exists batches, batch'. repeat (split; [assumption|]).
  rewrite Ht. destruct batch'; split; congruence.
Qed.

(** X4.  When a run of calls on a new writer drops nothing, no span is
    lost, repeated or moved: the span texts of the payloads written,
    followed by those still in the buffer, are the JSON texts of the
    spans passed to [add], in the order they were passed. *)
Theorem X4_no_span_lost_or_reordered cs e h' e' :
  calls jsonMarshal cs (newLambdaTraceWriter, e) = Some (h', e') ->
  statsd e' = statsd e ->
  exists batches batch',
    stdout e' = stdout e ++ map (fun b => render b ++ closing) batches /\
    payload h' = render batch' /\
    Forall2 (encodes jsonMarshal) (tracesOf cs)
            (concat (concat batches ++ batch')).
Proof.
  intros Hrun Hkept.
  destruct (calls_holds _ _ _ _ _ _ holds_new Hrun)
    as (batches & batch' & arrays & ds & Hout & _ & [Hp _] & Hcat & Hst & Hall).
  exists batches, batch'. split; [exact Hout|]. split; [exact Hp|].
  rewrite Hcat. cbn [app]. apply Hall.
  rewrite Hst in Hkept. destruct ds as [|d ds]; [reflexivity|].
  apply (f_equal length) in Hkept. rewrite length_app in Hkept.
  simpl in Hkept. lia.
Qed.

(** ** Why [add] drops a trace *)

Lemma addTrace_loop_failed trace : forall startLen i w0 h h' w err,
  addTrace_loop jsonMarshal startLen i trace w0 h = (h', (w, Some err)) ->
  dropReason err = "encoding_failed"%string ->
  exists s, In s trace /\ jsonMarshal (toJsonSpan s) = inr (cause err).
Proof.
  induction trace as [|s rest IH]; intros startLen i w0 h h' w err Hrun Hreason.
  - discriminate Hrun.
  - cbn [addTrace_loop] in Hrun.
    destruct (jsonMarshal (toJsonSpan s)) as [t|c] eqn:E.
    + rewrite (addSpan_ok jsonMarshal s t _ E) in Hrun.
      destruct (payloadLimit - 2 <? _).
      * destruct (_ && _).
        -- inversion Hrun; subst. discriminate Hreason.
        -- discriminate Hrun.
      * destruct (IH _ _ _ _ _ _ _ Hrun Hreason) as (s' & Hin & Hs').
        exists s'. split; [right; exact Hin|exact Hs'].
    + rewrite (addSpan_err jsonMarshal s c _ E) in Hrun.
      inversion Hrun; subst. exists s. split; [left; reflexivity|exact E].
Qed.

Lemma addTrace_failed trace h h' w err :
  addTrace jsonMarshal trace h = (h', (w, Some err)) ->
  dropReason err = "encoding_failed"%string ->
  exists s, In s trace /\ jsonMarshal (toJsonSpan s) = inr (cause err).
Proof.
  unfold addTrace.
  destruct (addTrace_loop jsonMarshal _ 0 trace 0 _) as [h1 [w1 [e1|]]] eqn:Hloop;
    intros Hrun Hreason; inversion Hrun; subst.
  eapply addTrace_loop_failed; eassumption.
Qed.

(** A drop is either the encoder's failure on a span of the trace or a
    span that does not fit into an empty payload. *)
Lemma add_loop_justified fuel : forall trace h e h' e',
  (hasTraces h = false -> payload h = tracesOpen) ->
  add_loop jsonMarshal fuel trace (h, e) = Some (h', e') ->
  statsd e' = statsd e \/
  exists s, In s trace /\
    ((exists c, jsonMarshal (toJsonSpan s) = inr c /\
                statsd e' = statsd e
                            ++ [Count "datadog.tracer.traces_dropped" 1
                                      ["reason:encoding_failed"%string]] /\
                errors e' = errors e ++ [c]) \/
     (exists t, encodes jsonMarshal s t /\
                payloadLimit - 15 < Buffer.Len t /\
                statsd e' = statsd e
                            ++ [Count "datadog.tracer.traces_dropped" 1
                                      ["reason:trace_too_large"%string]] /\
                errors e' = errors e ++ ["span too large for payload"%string])).
Proof.
  induction fuel as [|fuel IH]; intros trace h e h' e' Hinv Hrun.
  - destruct trace; [|discriminate]. inversion Hrun; subst. left. reflexivity.
  - destruct trace as [|s rest]; [inversion Hrun; subst; left; reflexivity|].
    rewrite add_loop_step in Hrun.
    destruct (addTrace jsonMarshal (s :: rest) h) as [h1 [w err]] eqn:Hadd.
    pose proof (addTrace_spec jsonMarshal _ _ _ _ _ Hadd) as Hspec.
    destruct err as [err|].
    + inversion Hrun; subst h' e'. clear Hrun. right.
      destruct Hspec as (_ & _ & _ & [[c ->]|(-> & Hn & s0 & rest0 & t & Htr & Henc & Hbig)]).
      * destruct (addTrace_failed _ _ _ _ _ Hadd eq_refl) as (s' & Hin & Hs').
        exists s'. split; [exact Hin|]. left. exists c.
        split; [exact Hs'|]. split; reflexivity.
      * inversion Htr; subst s0 rest0. exists s. split; [left; reflexivity|].
        right. exists t. split; [exact Henc|]. split; [|split; reflexivity].
        rewrite (Hinv Hn) in Hbig. rewrite !Len_app, Len_tracesOpen in Hbig.
        change (Buffer.Len (str "[")) with 1 in Hbig. lia.
    + destruct Hspec as (texts & Hw & _ & _ & Hh1 & _ & _).
      destruct (drop w (s :: rest)) as [|s' rest'] eqn:Hdrop.
      * left. destruct fuel; simpl in Hrun; inversion Hrun; reflexivity.
      * cbn [length Nat.ltb Nat.leb] in Hrun.
        rewrite Hh1, flush_appendEntry in Hrun.
        apply IH in Hrun; [|intros _; apply payload_new].
        cbn [statsd errors os_Stdout_Write] in Hrun.
        destruct Hrun as [Hsame|(s0 & Hin & Hcase)]; [left; exact Hsame|].
        right. exists s0. split; [|exact Hcase].
        rewrite <- Hdrop in Hin.
        rewrite <- (take_drop w (s :: rest)). apply in_or_app. right. exact Hin.
Qed.

(** X5.  In a state reached from a new writer, [add] counts a drop
    only for a reason that is true of the trace: with
    [encoding_failed], a span of the trace on which the encoder fails,
    its error being the cause logged; with [trace_too_large], a span of
    the trace whose JSON text is longer than [payloadLimit - 15] bytes,
    what an empty payload has room for. *)
Theorem X5_drops_are_justified cs e0 h e trace h' e' :
  calls jsonMarshal cs (newLambdaTraceWriter, e0) = Some (h, e) ->
  add jsonMarshal trace (h, e) = Some (h', e') ->
  statsd e' <> statsd e ->
  exists s, In s trace /\
    ((exists c, jsonMarshal (toJsonSpan s) = inr c /\
                statsd e' = statsd e
                            ++ [Count "datadog.tracer.traces_dropped" 1
                                      ["reason:encoding_failed"%string]] /\
                errors e' = errors e ++ [c]) \/
     (exists t, encodes jsonMarshal s t /\
                payloadLimit - 15 < Buffer.Len t /\
                statsd e' = statsd e
                            ++ [Count "datadog.tracer.traces_dropped" 1
                                      ["reason:trace_too_large"%string]] /\
                errors e' = errors e ++ ["span too large for payload"%string])).
Proof.
  intros Hreach Hadd Hdropped.
  destruct (calls_holds _ _ _ _ _ _ holds_new Hreach)
    as (_ & batch & _ & _ & _ & _ & [Hp Ht] & _).
  assert (Hinv : hasTraces h = false -> payload h = tracesOpen).
  { intros Hf. rewrite Hp. destruct batch; [|congruence].
    unfold render. cbn [joinArrays]. apply app_nil_r. }
  destruct (add_loop_justified _ _ _ _ _ _ Hinv Hadd) as [Hsame|H];
    [contradiction|exact H].
Qed.

(** X6.  In a state reached from a new writer, a trace whose spans all
    encode, each to a text of at most [payloadLimit - 15] bytes, is
    never dropped: [add] writes every span, splitting the trace where
    it has to. *)
Theorem X6_fitting_trace_is_never_dropped cs e0 st trace :
  calls jsonMarshal cs (newLambdaTraceWriter, e0) = Some st ->
  Forall (fun s => exists t, encodes jsonMarshal s t /\
                             Buffer.Len t <= payloadLimit - 15) trace ->
  exists st' entries,
    add jsonMarshal trace st = Some st' /\
    statsd (snd st') = statsd (snd st) /\
    wroteAll jsonMarshal trace st st' entries.
Proof.
  intros Hreach Hsmall. destruct st as [h e].
  destruct (add_total jsonMarshal trace (h, e)) as [[h' e'] Hadd].
  destruct (calls_holds _ _ _ _ _ _ holds_new Hreach)
    as (_ & batch & _ & _ & _ & _ & [Hp Ht] & _).
  assert (Hinv : hasTraces h = false -> payload h = tracesOpen).
  { intros Hf. rewrite Hp. destruct batch; [|congruence].
    unfold render. cbn [joinArrays]. apply app_nil_r. }
  assert (Hkept : statsd e' = statsd e).
  { destruct (add_loop_justified _ _ _ _ _ _ Hinv Hadd)
      as [Hsame|(s & Hin & Hcase)]; [exact Hsame|exfalso].
    rewrite Forall_forall in Hsmall. apply list_elem_of_In in Hin.
    destruct (Hsmall s Hin) as (t & Henc & Hlen).
    unfold encodes in *.
    destruct Hcase as [(c & Hc & _)|(t' & Henc' & Hbig & _)]; [congruence|].
    assert (t' = t) by congruence. subst t'. lia. }
  exists (h', e').
  destruct (add_loop_outcome jsonMarshal _ _ _ _ Hadd)
    as [[entries Hw]|(entries & err & _ & _ & _ & ws & _ & He')].
  - exists entries. split; [exact Hadd|]. split; [exact Hkept|exact Hw].
  - exfalso. cbn [snd] in He'. rewrite He' in Hkept. cbn [statsd] in Hkept.
    apply (f_equal length) in Hkept. rewrite length_app in Hkept.
    simpl in Hkept. lia.
Qed.

(** ** A span that fails to encode *)

Lemma comma_payload i h :
  payload (if (i =? 0)%nat then h
           else mkLambda (Buffer.WriteByte ","%byte (payload h)) (hasTraces h))
  = payload h ++ (if (i =? 0)%nat then [] else str ",") /\
  hasTraces (if (i =? 0)%nat then h
             else mkLambda (Buffer.WriteByte ","%byte (payload h)) (hasTraces h))
  = hasTraces h.
Proof.
  destruct (i =? 0)%nat; cbn [payload hasTraces]; [rewrite app_nil_r|]; auto.
Qed.

Lemma addTrace_loop_fails done texts :
  Forall2 (encodes jsonMarshal) done texts ->
  forall b x i h s c rest,
    payload h = b ++ x ->
    (texts = [] \/ Buffer.Len (payload h ++ joinSpans i texts) <= payloadLimit - 2) ->
    jsonMarshal (toJsonSpan s) = inr c ->
    addTrace_loop jsonMarshal (Buffer.Len b) i (done ++ s :: rest) i h
    = (mkLambda b (hasTraces h),
       (0%nat, Some (mkEncodingError c "encoding_failed"))).
Proof.
  induction 1 as [|s0 t done texts Hst Hall IH];
    intros b x i h s c rest Hb Hfit Hfail.
  - cbn [app addTrace_loop]. rewrite (addSpan_err jsonMarshal s c _ Hfail).
    destruct (comma_payload i h) as [Hp Ht].
    unfold truncatePayload. cbn [payload hasTraces]. rewrite Hp, Ht, Hb.
    rewrite <- app_assoc, Truncate_Write. reflexivity.
  - cbn [app addTrace_loop]. rewrite (addSpan_ok jsonMarshal s0 t _ Hst).
    destruct (comma_payload i h) as [Hp Ht].
    cbn [payload hasTraces]. rewrite Hp, Ht. rewrite <- app_assoc.
    destruct Hfit as [Hnil|Hfit]; [discriminate|].
    cbn [joinSpans] in Hfit.
    assert (Hsmall : Buffer.Len (payload h ++ (if (i =? 0)%nat then [] else str ",") ++ t)
                     <= payloadLimit - 2).
    { rewrite !Len_app in *. pose proof (Len_nonneg (joinSpans (S i) texts)). lia. }
    replace (payloadLimit - 2 <? _) with false
      by (symmetry; apply Z.ltb_ge; exact Hsmall).
    rewrite (IH b (x ++ (if (i =? 0)%nat then [] else str ",") ++ t) (S i) _ s c rest).
    + reflexivity.
    + cbn [payload]. rewrite Hb, <- !app_assoc. reflexivity.
    + right. cbn [payload]. rewrite <- ?app_assoc. rewrite <- ?app_assoc in Hfit.
      exact Hfit.
    + exact Hfail.
Qed.

(** X7.  When the encoder fails on a span that [addTrace] reaches in
    the current batch (the spans before it encode and fit), [add] drops
    the whole trace: the spans already written for it are taken out of
    the buffer again, nothing is written to standard output, one drop
    is counted with reason [encoding_failed], and the encoder's error
    is logged. *)
Theorem X7_encoding_failure_rolls_back done texts s c rest h e :
  Forall2 (encodes jsonMarshal) done texts ->
  jsonMarshal (toJsonSpan s) = inr c ->
  texts = [] \/
  Buffer.Len (payload h ++ traceOpen h ++ joinSpans 0 texts) <= payloadLimit - 2 ->
  add jsonMarshal (done ++ s :: rest) (h, e)
  = Some (h, mkProcess (stdout e)
                       (statsd e ++ [Count "datadog.tracer.traces_dropped" 1
                                           ["reason:encoding_failed"%string]])
                       (errors e ++ [c])).
Proof.
  intros Hall Hfail Hfit. unfold add.
  destruct (done ++ s :: rest) as [|s0 rest0] eqn:Htrace.
  { destruct done; discriminate. }
  cbn [length]. rewrite add_loop_step. rewrite <- Htrace.
  assert (Hadd : addTrace jsonMarshal (done ++ s :: rest) h
                 = (h, (0%nat, Some (mkEncodingError c "encoding_failed")))).
  { unfold addTrace.
    assert (Hh0 : (if negb (hasTraces h) then writePayload (str "[") h
                   else writePayload (str ", [") h)
                  = mkLambda (payload h ++ traceOpen h) (hasTraces h)).
    { unfold traceOpen, writePayload. destruct (hasTraces h); reflexivity. }
    rewrite Hh0.
    rewrite (addTrace_loop_fails done texts Hall (payload h) (traceOpen h) 0 _
               s c rest).
    - destruct h; reflexivity.
    - reflexivity.
    - cbn [payload]. rewrite <- app_assoc. exact Hfit.
    - exact Hfail. }
  rewrite Hadd. reflexivity.
Qed.

(** X8.  Whatever is added to a new writer and whenever it is flushed,
    the buffer holds at most [payloadLimit - 1] bytes between two
    calls and no payload written to standard output is longer than
    [payloadLimit + 5] bytes. *)
Theorem X8_payloads_at_most_limit_plus_5 cs e h' e' :
  calls jsonMarshal cs (newLambdaTraceWriter, e) = Some (h', e') ->
  Buffer.Len (payload h') <= payloadLimit - 1 /\
  exists ws, stdout e' = stdout e ++ ws /\
             Forall (fun w => Buffer.Len w <= payloadLimit + 5) ws.
Proof.
  intros Hrun.
  destruct (calls_bound jsonMarshal _ _ _ _ _ bufferOK_new Hrun) as [Hok Hw].
  split; [exact Hok|exact Hw].
Qed.

(** X9.  A second [flush] right after a [flush] does nothing: the
    first leaves the buffer in its reset state, without traces. *)
Theorem X9_flush_twice_is_flush_once st : flush (flush st) = flush st.
Proof.
  destruct st as [h e]. destruct (hasTraces h) eqn:Ht.
  - rewrite (flush_hasTraces h e Ht). reflexivity.
  - unfold flush. rewrite Ht. cbn [negb]. rewrite Ht. reflexivity.
Qed.

(** ** No call of [Truncate] panics *)

Lemma Checked_Truncate_ok n b :
  0 <= n <= Buffer.Len b ->
  Checked.Truncate n b = Some (Buffer.Truncate n b).
Proof.
  intros [H0 H1]. unfold Checked.Truncate.
  replace (0 <=? n) with true by (symmetry; apply Z.leb_le; exact H0).
  replace (n <=? Buffer.Len b) with true by (symmetry; apply Z.leb_le; exact H1).
  reflexivity.
Qed.

Lemma Checked_truncatePayload_ok n h :
  0 <= n <= Buffer.Len (payload h) ->
  Checked.truncatePayload n h = Some (truncatePayload n h).
Proof.
  intros H. unfold Checked.truncatePayload. rewrite Checked_Truncate_ok by exact H.
  reflexivity.
Qed.

Lemma Checked_addSpan_ok s h :
  Checked.addSpan jsonMarshal s h = Some (addSpan jsonMarshal s h).
Proof.
  unfold Checked.addSpan, addSpan, Encode.
  destruct (jsonMarshal (toJsonSpan s)) as [t|c]; [|reflexivity].
  rewrite Checked_Truncate_ok; [reflexivity|].
  unfold Buffer.WriteString. rewrite !Len_app.
  pose proof (Len_nonneg (payload h)). pose proof (Len_nonneg t).
  change (Buffer.Len [newline]) with 1. lia.
Qed.

Lemma Checked_addTrace_loop_ok trace : forall b x i w0 h,
  payload h = b ++ x ->
  Checked.addTrace_loop jsonMarshal (Buffer.Len b) i trace w0 h
  = Some (addTrace_loop jsonMarshal (Buffer.Len b) i trace w0 h).
Proof.
  induction trace as [|s rest IH]; intros b x i w0 h Hb; [reflexivity|].
  cbn [Checked.addTrace_loop addTrace_loop]. rewrite Checked_addSpan_ok.
  destruct (comma_payload i h) as [Hp Ht].
  pose proof (Len_nonneg b) as Hb0. pose proof (Len_nonneg (payload h)) as Hh0.
  destruct (jsonMarshal (toJsonSpan s)) as [t|c] eqn:E.
  - rewrite (addSpan_ok jsonMarshal s t _ E). cbn [payload hasTraces].
    rewrite Hp, Ht.
    assert (Hlen : Buffer.Len b <= Buffer.Len (payload h) /\
                   Buffer.Len (payload h)
                   <= Buffer.Len ((payload h ++ (if (i =? 0)%nat then [] else str ",")) ++ t)).
    { rewrite Hb, !Len_app.
      pose proof (Len_nonneg x). pose proof (Len_nonneg t).
      destruct (i =? 0)%nat; [rewrite Len_nil|change (Buffer.Len (str ",")) with 1];
        lia. }
    destruct (payloadLimit - 2 <? _).
    + destruct ((i =? 0)%nat && negb (hasTraces h)).
      * rewrite Checked_truncatePayload_ok; [reflexivity|cbn [payload]; lia].
      * rewrite Checked_truncatePayload_ok; [reflexivity|cbn [payload]; lia].
    + apply (IH b (x ++ (if (i =? 0)%nat then [] else str ",") ++ t)).
      cbn [payload]. rewrite Hb, <- !app_assoc. reflexivity.
  - rewrite (addSpan_err jsonMarshal s c _ E).
    rewrite Checked_truncatePayload_ok; [reflexivity|].
    cbn [payload]. rewrite Hp, Hb, !Len_app.
    pose proof (Len_nonneg x).
    destruct (i =? 0)%nat; [rewrite Len_nil|change (Buffer.Len (str ",")) with 1];
      lia.
Qed.

(** X10.  No [Truncate] call of [addSpan] and [addTrace] is out of
    range: with [Truncate] panicking as in Go, [addTrace] still returns
    on every trace and in every state, and returns what the model
    without panics returns. *)
Theorem X10_addTrace_never_panics trace h :
  Checked.addTrace jsonMarshal trace h = Some (addTrace jsonMarshal trace h).
Proof.
  unfold Checked.addTrace, addTrace.
  rewrite (Checked_addTrace_loop_ok trace (payload h)
             (if negb (hasTraces h) then str "[" else str ", [")).
  - destruct (addTrace_loop jsonMarshal _ 0 trace 0 _) as [h1 [w [err|]]];
      reflexivity.
  - destruct (hasTraces h); reflexivity.
Qed.

End LambdaExtras.

(** ** The properties above on concrete runs *)

Lemma calls_after_calls cs st :
  calls Json.Marshal cs st = Some (fst (after_calls cs st), snd (after_calls cs st)).
Proof.
  unfold after_calls. destruct (calls_total Json.Marshal cs st) as [[h e] ->].
  reflexivity.
Qed.

Lemma add_after_add_pair trace h e :
  add Json.Marshal trace (h, e)
  = Some (fst (after_add trace (h, e)), snd (after_add trace (h, e))).
Proof. rewrite <- surjective_pairing. apply add_after_add. Qed.

Lemma X3_witness :
  exists batches batch',
    stdout (snd (after_calls calls0 lambda0))
    = stdout process0 ++ map (fun b => render b ++ closing) batches /\
    Forall (fun b => b <> []) batches /\
    payload (fst (after_calls calls0 lambda0)) = render batch' /\
    (hasTraces (fst (after_calls calls0 lambda0)) = true <-> batch' <> []).
Proof.
  apply (X3_payloads_are_closed_batches Json.Marshal calls0 process0).
  apply calls_after_calls.
Defined.

Lemma X4_witness :
  exists batches batch',
    stdout (snd (after_calls calls0 lambda0))
    = stdout process0 ++ map (fun b => render b ++ closing) batches /\
    payload (fst (after_calls calls0 lambda0)) = render batch' /\
    Forall2 (encodes Json.Marshal) (tracesOf calls0)
            (concat (concat batches ++ batch')).
Proof.
  apply (X4_no_span_lost_or_reordered Json.Marshal calls0 process0).
  - apply calls_after_calls.
  - vm_compute. reflexivity.
Defined.

Lemma X5_witness :
  exists s, In s [smallSpan; nanSpan] /\
    ((exists c, Json.Marshal (toJsonSpan s) = inr c /\
                statsd (snd (after_add [smallSpan; nanSpan]
                               (after_calls calls0 lambda0)))
                = statsd (snd (after_calls calls0 lambda0))
                  ++ [Count "datadog.tracer.traces_dropped" 1
                            ["reason:encoding_failed"%string]] /\
                errors (snd (after_add [smallSpan; nanSpan]
                               (after_calls calls0 lambda0)))
                = errors (snd (after_calls calls0 lambda0)) ++ [c]) \/
     (exists t, encodes Json.Marshal s t /\
                payloadLimit - 15 < Buffer.Len t /\
                statsd (snd (after_add [smallSpan; nanSpan]
                               (after_calls calls0 lambda0)))
                = statsd (snd (after_calls calls0 lambda0))
                  ++ [Count "datadog.tracer.traces_dropped" 1
                            ["reason:trace_too_large"%string]] /\
                errors (snd (after_add [smallSpan; nanSpan]
                               (after_calls calls0 lambda0)))
                = errors (snd (after_calls calls0 lambda0))
                  ++ ["span too large for payload"%string])).
Proof.
  apply (X5_drops_are_justified Json.Marshal calls0 process0
           (fst (after_calls calls0 lambda0)) (snd (after_calls calls0 lambda0))
           [smallSpan; nanSpan]
           (fst (after_add [smallSpan; nanSpan] (after_calls calls0 lambda0)))).
  - apply calls_after_calls.
  - rewrite <- !surjective_pairing. apply add_after_add.
  - vm_compute. discriminate.
Defined.

Lemma X6_witness :
  exists st' entries,
    add Json.Marshal [smallSpan; smallSpan]
        (fst (after_calls calls0 lambda0), snd (after_calls calls0 lambda0))
    = Some st' /\
    statsd (snd st') = statsd (snd (after_calls calls0 lambda0)) /\
    wroteAll Json.Marshal [smallSpan; smallSpan]
             (fst (after_calls calls0 lambda0), snd (after_calls calls0 lambda0))
             st' entries.
Proof.
  apply (X6_fitting_trace_is_never_dropped Json.Marshal calls0 process0).
  - apply calls_after_calls.
  - repeat (constructor 2;
            [exists (jsonText smallSpan);
             split; [apply encodes_namedSpan|vm_compute; discriminate]|]).
    constructor 1.
Defined.

Lemma X7_witness :
  add Json.Marshal ([smallSpan] ++ nanSpan :: [smallSpan]) lambda0
  = Some (newLambdaTraceWriter,
          mkProcess [] [Count "datadog.tracer.traces_dropped" 1
                              ["reason:encoding_failed"%string]]
                    ["json: unsupported value: NaN"%string]).
Proof.
  apply (X7_encoding_failure_rolls_back Json.Marshal [smallSpan]
           [jsonText smallSpan] nanSpan "json: unsupported value: NaN"
           [smallSpan] newLambdaTraceWriter process0).
  - constructor 2; [apply encodes_namedSpan|constructor 1].
  - reflexivity.
  - right. vm_compute. discriminate.
Defined.

Lemma X8_witness :
  Buffer.Len (payload (fst (after_calls calls0 lambda0))) <= payloadLimit - 1 /\
  exists ws, stdout (snd (after_calls calls0 lambda0)) = stdout process0 ++ ws /\
             Forall (fun w => Buffer.Len w <= payloadLimit + 5) ws.
Proof.
  apply (X8_payloads_at_most_limit_plus_5 Json.Marshal calls0 process0).
  apply calls_after_calls.
Defined.

(** ** More about agentTraceWriter *)

Lemma count_pos {A} (f : A -> bool) (l : list A) i x :
  l !! i = Some x -> f x = true ->
  (0 < length (filter (fun g => f g = true) l))%nat.
Proof.
  revert i. induction l as [|y l IH]; intros i Hi Hx; [discriminate|].
  rewrite filter_cons. destruct i as [|i]; simpl in Hi.
  - inversion Hi; subst y. rewrite decide_True by exact Hx. simpl. lia.
  - specialize (IH i Hi Hx). destruct (decide (f y = true)); simpl; lia.
Qed.

Lemma sentBy_app gs g :
  sentBy (gs ++ [g]) = sentBy gs ++ (if hasSent g then [g_payload g] else []).
Proof.
  unfold sentBy. rewrite filter_app, fmap_app. f_equal.
  rewrite filter_cons, filter_nil. destruct (hasSent g); reflexivity.
Qed.

(** A goroutine that moves on keeps its payload; it joins the senders
    when it leaves its first phase. *)
Lemma sentBy_insert gs : forall i g g',
  gs !! i = Some g ->
  g_payload g' = g_payload g ->
  (hasSent g = true -> hasSent g' = true) ->
  sentBy (<[i := g']> gs)
  ≡ₚ (if hasSent g' && negb (hasSent g) then [g_payload g] else [])
     ++ sentBy gs.
Proof.
  unfold sentBy.
  induction gs as [|x gs IH]; intros i g g' Hi Hp Hmono; [discriminate|].
  destruct i as [|i]; simpl in Hi.
  - inversion Hi; subst x. cbn [insert list_insert]. rewrite !filter_cons.
    destruct (hasSent g) eqn:Hg.
    + rewrite (Hmono eq_refl). simpl. rewrite Hp. reflexivity.
    + destruct (hasSent g') eqn:Hg'; simpl; [rewrite Hp|]; reflexivity.
  - cbn [insert list_insert]. rewrite !filter_cons.
    specialize (IH i g g' Hi Hp Hmono).
    destruct (decide (hasSent x = true)); [|exact IH].
    rewrite !fmap_cons, IH. apply Permutation_middle.
Qed.

Lemma sum_insert {A} (f : A -> nat) (l : list A) : forall i x y,
  l !! i = Some x ->
  (sum_list_with f (<[i := y]> l) + f x = sum_list_with f l + f y)%nat.
Proof.
  induction l as [|z l IH]; intros i x y Hi; [discriminate|].
  destruct i as [|i]; simpl in Hi |- *.
  - inversion Hi; subst z. lia.
  - specialize (IH i x y Hi). lia.
Qed.


Lemma sum_lookup_le {A} (f : A -> nat) (l : list A) : forall i x,
  l !! i = Some x -> (f x <= sum_list_with f l)%nat.
Proof.
  induction l as [|z l IH]; intros i x Hi; [discriminate|].
  destruct i as [|i]; simpl in Hi |- *.
  - inversion Hi; subst z. lia.
  - specialize (IH i x Hi). lia.
Qed.

Lemma exited_dec (g : goroutine) :
  {g_phase g = Exited} + {g_phase g <> Exited}.
Proof. destruct (g_phase g); (left; reflexivity) || (right; discriminate). Qed.




Section AgentExtras.

Variable encodedSize : list span -> Z + error.
Variable payloadSizeLimit : Z.
Variable concurrentConnectionLimit : nat.

Local Abbreviation inv := (agent_inv concurrentConnectionLimit).
Local Abbreviation flush' := (agent_flush concurrentConnectionLimit).
Local Abbreviation add' :=
  (agent_add encodedSize payloadSizeLimit concurrentConnectionLimit).
Local Abbreviation step' :=
  (agent_step encodedSize payloadSizeLimit concurrentConnectionLimit).
Local Abbreviation reachable' :=
  (reachable encodedSize payloadSizeLimit concurrentConnectionLimit).

Lemma inv2_new e : agent_inv2 (newAgentTraceWriter e).
Proof.
  constructor; simpl; [reflexivity| |reflexivity].
  intros p obj Hp. lia.
Qed.

Lemma inv2_frame a a' :
  ag_payload a' = ag_payload a -> length (heap a') = length (heap a) ->
  (forall p, (p < ag_payload a)%nat -> heap a' !! p = heap a !! p) ->
  goroutines a' = goroutines a -> sent a' = sent a ->
  agent_inv2 a -> agent_inv2 a'.
Proof.
  intros Hp Hl Hh Hg Hs [I1 I2 I3]. constructor.
  - rewrite Hp, Hl. exact I1.
  - intros p obj Hlt Hobj. rewrite Hp in Hlt. rewrite (Hh p Hlt) in Hobj.
    eapply I2; eassumption.
  - rewrite Hs, Hg. exact I3.
Qed.

Lemma inv2_flush a a' : agent_inv2 a -> flush' a = Some a' -> agent_inv2 a'.
Proof.
  intros [I1 I2 I3] Hf.
  destruct (agent_flush_cases _ _ _ Hf) as [[_ ->]|(Hcount & _ & ->)];
    [constructor; assumption|].
  constructor; cbn [ag_payload heap goroutines sent].
  - rewrite length_app. simpl. lia.
  - intros p obj Hlt Hobj. rewrite lookup_app_l in Hobj by exact Hlt.
    destruct (decide (p = ag_payload a)) as [->|Hne].
    + unfold deref in Hcount. rewrite Hobj in Hcount. exact Hcount.
    + apply (I2 p obj); [lia|exact Hobj].
  - rewrite sentBy_app. cbn [hasSent g_phase]. rewrite app_nil_r. exact I3.
Qed.

Lemma inv2_pushed trace a : agent_inv2 a -> agent_inv2 (pushed encodedSize trace a).
Proof.
  destruct (pushed_frame encodedSize trace a) as (H1 & _ & _ & H4 & H5 & H6 & H7).
  apply inv2_frame; try assumption. intros p Hp. apply H7. lia.
Qed.

Lemma inv2_add trace a a' : agent_inv2 a -> add' trace a = Some a' -> agent_inv2 a'.
Proof.
  intros Ha. rewrite agent_add_pushed.
  destruct (payloadSizeLimit <? _).
  - apply inv2_flush.
    eapply inv2_frame; [..|apply (inv2_pushed trace a Ha)]; reflexivity.
  - intros [= <-]. apply inv2_pushed. exact Ha.
Qed.

Lemma deliver_frame p o a :
  ag_payload (deliver p o a) = ag_payload a /\
  ag_climit (deliver p o a) = ag_climit a /\
  ag_wg (deliver p o a) = ag_wg a /\
  heap (deliver p o a) = heap a /\
  goroutines (deliver p o a) = goroutines a /\
  sent (deliver p o a) = sent a ++ [p].
Proof. unfold deliver. destruct o as [err|rc [|]]; repeat split. Qed.

Lemma inv2_goroutine a a' : agent_inv2 a -> goroutine_step a a' -> agent_inv2 a'.
Proof.
  intros [I1 I2 I3] Hstep.
  destruct Hstep as [i p o a Hg|i p a Hg|i p a Hg|i p a Hg].
  - destruct (deliver_frame p o a) as (D1 & _ & _ & D4 & D5 & D6).
    constructor; unfold with_goroutine; cbn [ag_payload heap goroutines sent];
      rewrite ?D1, ?D4, ?D5, ?D6; try assumption.
    rewrite (sentBy_insert _ _ _ (mkGoroutine p Releasing) Hg eq_refl)
      by reflexivity.
    cbn [hasSent g_phase andb negb g_payload].
    rewrite I3. symmetry. apply Permutation_cons_append.
  - constructor; unfold with_goroutine, receive_climit;
      cbn [ag_payload heap goroutines sent]; try assumption.
    rewrite (sentBy_insert _ _ _ (mkGoroutine p Finishing) Hg eq_refl)
      by reflexivity.
    exact I3.
  - constructor; unfold with_goroutine, wg_Done;
      cbn [ag_payload heap goroutines sent]; try assumption.
    rewrite (sentBy_insert _ _ _ (mkGoroutine p Reporting) Hg eq_refl)
      by reflexivity.
    exact I3.
  - constructor; unfold with_goroutine, with_proc;
      cbn [ag_payload heap goroutines sent]; try assumption.
    rewrite (sentBy_insert _ _ _ (mkGoroutine p Exited) Hg eq_refl)
      by reflexivity.
    exact I3.
Qed.

Lemma inv2_step a a' : agent_inv2 a -> step' a a' -> agent_inv2 a'.
Proof.
  intros Ha Hs. destruct Hs as [trace a0 a1 H|a0 a1 H|a0 a1 H|a0 a1 H].
  - eapply inv2_add; eassumption.
  - eapply inv2_flush; eassumption.
  - unfold agent_stop in H. destruct (ag_wg a0 =? 0)%nat; [|discriminate].
    injection H as <-. assumption.
  - eapply inv2_goroutine; eassumption.
Qed.

Lemma inv2_reachable a : reachable' a -> agent_inv2 a.
Proof.
  intros [e Hs].
  assert (H : forall a0 a1, rtc step' a0 a1 -> agent_inv2 a0 -> agent_inv2 a1).
  { intros a0 a1 H. induction H; eauto using inv2_step. }
  eapply H; [exact Hs|apply inv2_new].
Qed.

(** X11.  In every state the program reaches, no payload was passed to
    [transport.send] twice, and every payload passed to it was detached
    by a flush before (it is older than [h.payload]) and holds at least
    one trace. *)
Theorem X11_sends_detached_payloads_once a :
  reachable' a ->
  NoDup (sent a) /\
  forall p, p ∈ sent a ->
    (p < ag_payload a)%nat /\
    exists obj, heap a !! p = Some obj /\ Payload.itemCount obj <> 0.
Proof.
  intros Hreach.
  pose proof (inv_reachable _ _ _ _ Hreach) as Ha.
  pose proof (inv2_reachable _ Hreach) as Ha2.
  split.
  - rewrite (inv2_sent _ Ha2). unfold sentBy.
    eapply sublist_NoDup; [apply (inv_distinct _ _ Ha)|].
    apply fmap_sublist. apply sublist_filter.
  - intros p Hp. pose proof (inv_sent _ _ Ha) as Hs.
    rewrite Forall_forall in Hs. specialize (Hs p Hp). split; [exact Hs|].
    pose proof (inv_payload _ _ Ha) as Hlt.
    destruct (lookup_lt_is_Some_2 (heap a) p) as [obj Hobj]; [lia|].
    exists obj. split; [exact Hobj|]. eapply (inv2_nonempty _ Ha2); eassumption.
Qed.

(** X13.  What the deferred function of a goroutine needs is there: in
    every state the program reaches, a goroutine that has not received
    from [h.climit] yet finds an element in the channel, and a
    goroutine that has not called [h.wg.Done()] yet finds the counter
    above zero. *)
Theorem X13_deferred_calls_find_their_token a i g :
  reachable' a ->
  goroutines a !! i = Some g ->
  (holdsSlot g = true -> (0 < ag_climit a)%nat) /\
  (counted g = true -> (0 < ag_wg a)%nat).
Proof.
  intros Hreach Hg. pose proof (inv_reachable _ _ _ _ Hreach) as Ha.
  split; intros Hf.
  - rewrite (inv_climit _ _ Ha). unfold delivering.
    eapply (count_pos holdsSlot); eassumption.
  - rewrite (inv_wg _ _ Ha). eapply (count_pos counted); eassumption.
Qed.

(** X14.  In every state the program reaches, [stop] returns exactly
    when every goroutine started by a flush has called [h.wg.Done()],
    and blocks otherwise. *)
Theorem X14_stop_returns_iff_drained a :
  reachable' a ->
  (agent_stop a = Some a <->
   Forall (fun g => counted g = false) (goroutines a)) /\
  (agent_stop a = None <->
   Exists (fun g => counted g = true) (goroutines a)).
Proof.
  intros Hreach. pose proof (inv_reachable _ _ _ _ Hreach) as Ha.
  pose proof (inv_wg _ _ Ha) as Hwg. unfold agent_stop.
  assert (Hiff : ag_wg a = 0%nat <->
                 Forall (fun g => counted g = false) (goroutines a)).
  { rewrite Hwg. split; [apply count_zero_inv|apply count_zero]. }
  split.
  - destruct (ag_wg a =? 0)%nat eqn:Hz.
    + apply Nat.eqb_eq in Hz. split; [intros _; apply Hiff; exact Hz|reflexivity].
    + apply Nat.eqb_neq in Hz. split; [discriminate|].
      intros H. apply Hiff in H. contradiction.
  - destruct (ag_wg a =? 0)%nat eqn:Hz.
    + apply Nat.eqb_eq in Hz. split; [discriminate|].
      intros Hex. apply Hiff in Hz. apply Exists_exists in Hex as (g & Hin & Hg).
      rewrite Forall_forall in Hz. specialize (Hz g Hin). congruence.
    + apply Nat.eqb_neq in Hz. split; [intros _|reflexivity].
      destruct (Forall_Exists_dec (fun g => counted g = false)
                  (fun g => counted g = true)
                  (fun g => match counted g as b
                                  return {b = false} + {b = true} with
                            | true => right eq_refl
                            | false => left eq_refl
                            end) (goroutines a)) as [Hall|Hex];
        [|exact Hex].
      apply Hiff in Hall. contradiction.
Qed.

(** ** The traces the metrics account for *)





(** ** Draining *)

Lemma drain n : forall a,
  (sum_list_with stepsLeft (goroutines a) <= n)%nat ->
  exists a1, rtc goroutine_step a a1 /\
             Forall (fun g => g_phase g = Exited) (goroutines a1).
Proof.
  induction n as [|n IH]; intros a Hsum.
  - exists a. split; [apply rtc_refl|]. apply Forall_lookup. intros i g Hg.
    pose proof (sum_lookup_le stepsLeft _ _ _ Hg) as Hle.
    destruct g as [p []]; [exfalso..|reflexivity];
      change (stepsLeft _) with 4%nat in Hle || change (stepsLeft _) with 3%nat in Hle
      || change (stepsLeft _) with 2%nat in Hle || change (stepsLeft _) with 1%nat in Hle;
      lia.
  - destruct (Forall_Exists_dec (fun g => g_phase g = Exited)
                (fun g => g_phase g <> Exited) exited_dec (goroutines a))
      as [Hall|Hex].
    { exists a. split; [apply rtc_refl|exact Hall]. }
    apply Exists_exists in Hex as (g & Hin & Hg).
    apply list_elem_of_lookup_1 in Hin as [i Hi].
    assert (Hnext : exists a', goroutine_step a a' /\
                      (sum_list_with stepsLeft (goroutines a') <= n)%nat).
    { destruct g as [p ph].
      destruct ph; [| | | |contradiction Hg; reflexivity].
      - eexists. split; [apply (step_send i p (SendOK [] false) a Hi)|].
        unfold with_goroutine. cbn [goroutines].
        destruct (deliver_frame p (SendOK [] false) a) as (_ & _ & _ & _ & -> & _).
        pose proof (sum_insert stepsLeft _ _ _ (mkGoroutine p Releasing) Hi) as E.
        cbn [stepsLeft g_phase] in E. lia.
      - eexists. split; [apply (step_release i p a Hi)|].
        unfold with_goroutine, receive_climit. cbn [goroutines].
        pose proof (sum_insert stepsLeft _ _ _ (mkGoroutine p Finishing) Hi) as E.
        cbn [stepsLeft g_phase] in E. lia.
      - eexists. split; [apply (step_done i p a Hi)|].
        unfold with_goroutine, wg_Done. cbn [goroutines].
        pose proof (sum_insert stepsLeft _ _ _ (mkGoroutine p Reporting) Hi) as E.
        cbn [stepsLeft g_phase] in E. lia.
      - eexists. split; [apply (step_timing i p a Hi)|].
        unfold with_goroutine, with_proc. cbn [goroutines].
        pose proof (sum_insert stepsLeft _ _ _ (mkGoroutine p Exited) Hi) as E.
        cbn [stepsLeft g_phase] in E. lia. }
    destruct Hnext as (a' & Hstep & Hsum').
    destruct (IH a' Hsum') as (a1 & Hsteps & Hall).
    exists a1. split; [eapply rtc_l; eassumption|exact Hall].
Qed.

(** X15.  The writer cannot lock up, as long as every
    [transport.send] returns: from every state the program reaches the
    goroutines can run until [stop] returns, and then, with room for at
    least one connection, [flush] returns as well. *)
Theorem X15_goroutines_can_always_drain a :
  reachable' a ->
  exists a1,
    rtc goroutine_step a a1 /\
    agent_stop a1 = Some a1 /\
    ((0 < concurrentConnectionLimit)%nat -> exists a2, flush' a1 = Some a2).
Proof.
  intros Hreach. pose proof (inv_reachable _ _ _ _ Hreach) as Ha.
  destruct (drain _ a (Nat.le_refl _)) as (a1 & Hsteps & Hall).
  pose proof (inv_steps _ _ _ _ _ Ha
                (goroutine_steps_steps encodedSize payloadSizeLimit
                   concurrentConnectionLimit _ _ Hsteps)) as Ha1.
  exists a1. split; [exact Hsteps|].
  assert (Hwg : ag_wg a1 = 0%nat).
  { rewrite (inv_wg _ _ Ha1). apply count_zero.
    eapply Forall_impl; [exact Hall|]. intros g Hg. unfold counted.
    rewrite Hg. reflexivity. }
  assert (Hcl : ag_climit a1 = 0%nat).
  { rewrite (inv_climit _ _ Ha1). unfold delivering. apply count_zero.
    eapply Forall_impl; [exact Hall|]. intros g Hg. unfold holdsSlot.
    rewrite Hg. reflexivity. }
  split.
  - unfold agent_stop. rewrite Hwg. reflexivity.
  - intros Hroom. unfold agent_flush.
    destruct (Payload.itemCount (deref a1) =? 0); [eexists; reflexivity|].
    rewrite Hcl.
    replace (0 <? concurrentConnectionLimit)%nat with true
      by (symmetry; apply Nat.ltb_lt; exact Hroom).
    eexists. reflexivity.
Qed.

End AgentExtras.

(** ** A concrete run of the agent writer

    A trace is added to a new writer and flushed, a second trace is
    added, and the goroutine of the flush runs to its end. *)

Lemma steps_agent3 : rtc (agent_step encodedSize0 1000 1) agent0 agent3.
Proof.
  eapply rtc_l; [apply step_add with (trace := [span1k]);
                 instantiate (1 := agent1); reflexivity|].
  eapply rtc_l; [apply step_flush; instantiate (1 := agent2); reflexivity|].
  eapply rtc_l; [apply step_add with (trace := [span1k; span100]);
                 instantiate (1 := agent3); reflexivity|].
  apply rtc_refl.
Qed.

Lemma goroutine_steps_agent7 : rtc goroutine_step agent3 agent7.
Proof.
  eapply rtc_l; [apply (step_send 0 0 (SendOK [] false) agent3); reflexivity|].
  eapply rtc_l; [apply (step_release 0 0 agent4); reflexivity|].
  eapply rtc_l; [apply (step_done 0 0 agent5); reflexivity|].
  eapply rtc_l; [apply (step_timing 0 0 agent6); reflexivity|].
  apply rtc_refl.
Qed.

Lemma steps_agent7 : rtc (agent_step encodedSize0 1000 1) agent0 agent7.
Proof.
  etrans; [exact steps_agent3|].
  apply goroutine_steps_steps. exact goroutine_steps_agent7.
Qed.

Lemma reachable_agent7 : reachable encodedSize0 1000 1 agent7.
Proof. exists process0. exact steps_agent7. Qed.

(** After the run the one payload sent is the first one, detached and
    holding a trace. *)
Lemma X11_witness :
  NoDup (sent agent7) /\
  forall p, p ∈ sent agent7 ->
    (p < ag_payload agent7)%nat /\
    exists obj, heap agent7 !! p = Some obj /\ Payload.itemCount obj <> 0.
Proof.
  apply (X11_sends_detached_payloads_once encodedSize0 1000 1 agent7).
  exact reachable_agent7.
Defined.


(** The goroutine of the first flush, before it has run. *)
Lemma X13_witness :
  (holdsSlot (mkGoroutine 0 Sending) = true -> (0 < ag_climit agent2)%nat) /\
  (counted (mkGoroutine 0 Sending) = true -> (0 < ag_wg agent2)%nat).
Proof.
  apply (X13_deferred_calls_find_their_token encodedSize0 1000 1 agent2 0%nat
           (mkGoroutine 0 Sending)).
  - exact reachable_agent2.
  - reflexivity.
Defined.

(** While the goroutine of the first flush has not run, [stop] blocks. *)
Lemma X14_witness :
  (agent_stop agent3 = Some agent3 <->
   Forall (fun g => counted g = false) (goroutines agent3)) /\
  (agent_stop agent3 = None <->
   Exists (fun g => counted g = true) (goroutines agent3)).
Proof.
  apply (X14_stop_returns_iff_drained encodedSize0 1000 1 agent3).
  exact reachable_agent3.
Defined.

(** From the same state the goroutine can run to its end. *)
Lemma X15_witness :
  exists a1,
    rtc goroutine_step agent3 a1 /\
    agent_stop a1 = Some a1 /\
    ((0 < 1)%nat -> exists a2, agent_flush 1 a1 = Some a2).
Proof.
  apply (X15_goroutines_can_always_drain encodedSize0 1000 1 agent3).
  exact reachable_agent3.
Defined.
